(** * ChessPlusPlus: the board, its pieces and their derived state

    A shallow embedding of [src/board/Board.hpp] (class [Board], its nested
    classes [Piece] and [Interaction]) and statements about it.

    - [std::map] is a [gmap], [std::set] a [gset];
    - the [std::multimap] of capturable squares is the list of its entries
      in the order of their insertion: duplicates are kept, and the entries
      of one key follow each other as they do in the multimap, which iterates
      key by key; statements about the whole relation are made up to the
      order of the entries, or key by key;
    - an object owned by the position table is addressed by the key it is
      stored under: a method of [Piece] takes that key as its [this];
    - virtual hooks are functions from the board they read to the list of
      protected primitives they call; a factory function returns the piece
      it builds and the interactions it fetches from the board, or throws. *)

From stdpp Require Import gmap strings list sorting.

Set Warnings "-clear-no-such-hyp".

Local Open Scope Z_scope.

(** ** Positions and configuration *)

(** [util::Position]: a pair of integral coordinates [(x, y)]. *)
Abbreviation Position_t := (Z * Z)%type (only parsing).

Definition Origin : Position_t := (0, 0).

(** Modelled from the spec: [Position::isWithin] lives in util/Position.hpp,
    which is not among the sources. The spec gives the bounds predicate as
    [0 <= x < width] and [0 <= y < height]; with the origin as lower corner
    and [(width, height)] as the excluded upper corner this is it. *)
Definition isWithin (pos lo hi : Position_t) : bool :=
  (lo.1 <=? pos.1) && (pos.1 <? hi.1) && (lo.2 <=? pos.2) && (pos.2 <? hi.2).

(** Modelled from the spec: the order of [Position_t] used by the position
    table ([operator<] of util/Position.hpp, not among the sources); the
    spec only speaks of "position order". Lexicographic on [(x, y)]. *)
Definition Position_ltb (a b : Position_t) : bool :=
  (a.1 <? b.1) || ((a.1 =? b.1) && (a.2 <? b.2)).

Definition Position_le (a b : Position_t) : Prop := Position_ltb b a = false.

Global Instance Position_le_dec a b : Decision (Position_le a b).
Proof. unfold Position_le. apply _. Defined.

(** [config::BoardConfig::SuitClass_t], [PieceClass_t], [std::type_index] and
    the dynamic class of a piece: names. *)
Abbreviation Suit := string (only parsing).
Abbreviation PieceClass_t := string (only parsing).
Abbreviation type_index := string (only parsing).
Abbreviation Kind := string (only parsing).

(** The part of [config::BoardConfig] the board reads: its size and the
    initial layout, a sequence of slots [(position, (class, suit))]. *)
Record BoardConfig := {
  boardWidth : Z;
  boardHeight : Z;
  initialLayout : list (Position_t * (PieceClass_t * Suit))
}.

(** [std::size_t], taken as 64 bits wide; [++] wraps around. *)
Definition SIZE_MAX : N := (2 ^ 64 - 1)%N.

Definition size_t_incr (n : N) : N := ((n + 1) mod 2 ^ 64)%N.

(** ** Pieces *)

(** The members of [Board::Piece]; [kind] is the dynamic class of the
    object, the one that selects the overriding hooks. *)
Record Piece := {
  p : Position_t;
  s : Suit;
  traj : gset Position_t;
  capt : gset Position_t;
  movenum : N;
  kind : Kind
}.

Definition set_p (to : Position_t) (pc : Piece) : Piece :=
  {| p := to; s := s pc; traj := traj pc; capt := capt pc;
     movenum := movenum pc; kind := kind pc |}.

Definition set_traj (f : gset Position_t → gset Position_t) (pc : Piece) : Piece :=
  {| p := p pc; s := s pc; traj := f (traj pc); capt := capt pc;
     movenum := movenum pc; kind := kind pc |}.

Definition set_capt (f : gset Position_t → gset Position_t) (pc : Piece) : Piece :=
  {| p := p pc; s := s pc; traj := traj pc; capt := f (capt pc);
     movenum := movenum pc; kind := kind pc |}.

Definition set_movenum (f : N → N) (pc : Piece) : Piece :=
  {| p := p pc; s := s pc; traj := traj pc; capt := capt pc;
     movenum := f (movenum pc); kind := kind pc |}.

(** Modelled from the spec: the constructor [Piece(Board &, pos, suit)] is
    defined in Board.cpp, not among the sources. A piece is created with its
    square and side; the sets are default-constructed and [movenum] has its
    default member initialiser [0] (Board.hpp, line 40). *)
Definition Piece_ctor (pos : Position_t) (su : Suit) (K : Kind) : Piece :=
  {| p := pos; s := su; traj := ∅; capt := ∅; movenum := 0%N; kind := K |}.

(** ** The board *)

(** [Pieces_t::iterator] as [pieces.find] returns it: the node found, known
    by its key, or [end()]. The comparator of [Captures_t] looks at the key
    only. Comparing [end()] is undefined in C++; the model keeps it as a key
    of its own. *)
Inductive Pieces_t_iterator :=
  | It (key : Position_t)
  | End.

Global Instance Pieces_t_iterator_eq_dec : EqDecision Pieces_t_iterator.
Proof. solve_decision. Defined.

(** [Captures_t]: the entries [(iterator, tile)] in the order of their
    insertion. The multimap iterates them by key and, among the entries of
    one key, in the order of their insertion: what the list says of the
    real relation is which entries it holds, how often, and in which order
    those of one key follow each other ([equal_range] below), not how the
    entries of different keys are interleaved. *)
Abbreviation Captures_t := (list (Pieces_t_iterator * Position_t)) (only parsing).

(** [captures.equal_range(it)]: the entries of the key [it], in order. *)
Definition equal_range (it : Pieces_t_iterator) (c : Captures_t) : Captures_t :=
  filter (λ e, e.1 = it) c.

Record Board (IState : Type) := {
  config : BoardConfig;
  pieces : gmap Position_t Piece;
  captures : Captures_t;
  interactions : gmap type_index IState
}.

Arguments config {IState} _.
Arguments pieces {IState} _.
Arguments captures {IState} _.
Arguments interactions {IState} _.

(** What a hook does: the protected primitives of [Piece] it calls on its
    own piece, and the interactions it fetches from the board's registry
    and updates through the reference [getInteraction] returns. *)
Inductive Action (IState : Type) :=
  | AddTrajectory (tile : Position_t)
  | RemoveTrajectory (tile : Position_t)
  | AddCapturing (tile : Position_t)
  | RemoveCapturing (tile : Position_t)
  | AddCapturable (tile : Position_t)
  | RemoveCapturable (tile : Position_t)
  | Interact (t : type_index) (f : IState → IState).

Arguments AddTrajectory {IState} _.
Arguments RemoveTrajectory {IState} _.
Arguments AddCapturing {IState} _.
Arguments RemoveCapturing {IState} _.
Arguments AddCapturable {IState} _.
Arguments RemoveCapturable {IState} _.
Arguments Interact {IState} _ _.

(** The virtual functions of the classes deriving from [Piece] and the
    constructors of those deriving from [Interaction]; none of these classes
    is defined in Board.hpp. A hook receives the board it reads and the key
    of its own piece. [Piece::tick] and [Piece::moveUpdate] have an empty
    body in the base class: a class that does not override them has
    [λ _ _ _ .., []] here. *)
Record Rules (IState : Type) := {
  calcTrajectory : Kind → Board IState → Position_t → list (Action IState);
  moveUpdate :
    Kind → Board IState → Position_t → Position_t → Position_t → list (Action IState);
  tick : Kind → Board IState → Position_t → Position_t → list (Action IState);
  new_Interaction : type_index → Board IState → IState
}.

Arguments calcTrajectory {IState} _ _ _ _.
Arguments moveUpdate {IState} _ _ _ _ _ _.
Arguments tick {IState} _ _ _ _ _.
Arguments new_Interaction {IState} _ _ _.

(** What a throwing call propagates: [std::out_of_range] of [std::map::at]
    on a missing key, or whatever a factory function throws. *)
Inductive exception :=
  | out_of_range
  | thrown (what : string).

Inductive result (A : Type) :=
  | Ok (a : A)
  | Throw (e : exception).

Arguments Ok {A} _.
Arguments Throw {A} _.

(** [Factory_t]: from the class named in the layout to the function that
    builds the piece, given the board, the square and the suit. The
    function is handed the [Board &]: it reads the board, it may fetch
    interactions with [getInteraction] (a [Rook] holds a [Castling &] that
    its constructor has to bind) and it may throw. It returns the piece
    built and the types it asked [getInteraction] for, in the order of the
    calls. *)
Abbreviation Factory_t IState :=
  (gmap PieceClass_t
     (Board IState → Position_t → Suit → result (Piece * list type_index)))
  (only parsing).

Section Operations.
Variable IState : Type.
Variable rules : Rules IState.

Abbreviation Board := (Board IState).
Abbreviation Action := (Action IState).

Definition set_pieces (f : gmap Position_t Piece → gmap Position_t Piece)
    (b : Board) : Board :=
  {| config := config b; pieces := f (pieces b); captures := captures b;
     interactions := interactions b |}.

Definition set_captures (f : Captures_t → Captures_t) (b : Board) : Board :=
  {| config := config b; pieces := pieces b; captures := f (captures b);
     interactions := interactions b |}.

Definition set_interactions (f : gmap type_index IState → gmap type_index IState)
    (b : Board) : Board :=
  {| config := config b; pieces := pieces b; captures := captures b;
     interactions := f (interactions b) |}.

(** A write to a member of the piece stored under [k]. *)
Definition upd_piece (k : Position_t) (f : Piece → Piece) (b : Board) : Board :=
  set_pieces (alter f k) b.

(** [Board::valid] *)
Definition valid_in (c : BoardConfig) (pos : Position_t) : bool :=
  isWithin pos Origin (boardWidth c, boardHeight c).

Definition valid (b : Board) (pos : Position_t) : bool :=
  valid_in (config b) pos.

(** [board.pieces.find(pos)] *)
Definition pieces_find (b : Board) (pos : Position_t) : Pieces_t_iterator :=
  match pieces b !! pos with
  | Some _ => It pos
  | None => End
  end.

(** [Piece::addTrajectory], [removeTrajectory], [addCapturing],
    [removeCapturing], called on the piece stored under [k]. *)
Definition addTrajectory (k tile : Position_t) (b : Board) : Board :=
  if valid b tile then upd_piece k (set_traj (λ t, {[tile]} ∪ t)) b else b.

Definition removeTrajectory (k tile : Position_t) (b : Board) : Board :=
  upd_piece k (set_traj (λ t, t ∖ {[tile]})) b.

Definition addCapturing (k tile : Position_t) (b : Board) : Board :=
  if valid b tile then upd_piece k (set_capt (λ c, {[tile]} ∪ c)) b else b.

Definition removeCapturing (k tile : Position_t) (b : Board) : Board :=
  upd_piece k (set_capt (λ c, c ∖ {[tile]})) b.

(** [Piece::addCapturable]: the entry is keyed by the node found at the
    piece's own [pos]. *)
Definition addCapturable (k tile : Position_t) (b : Board) : Board :=
  match pieces b !! k with
  | Some pc =>
      if valid b tile
      then set_captures (λ c, c ++ [(pieces_find b (p pc), tile)]) b
      else b
  | None => b
  end.

(** The loop of [Piece::removeCapturable] over the multimap: entries out
    of the equal range of [it] are passed over; the first one in the range
    whose tile matches is erased and the loop is left. *)
Fixpoint erase_scan (it : Pieces_t_iterator) (tile : Position_t)
    (c : Captures_t) : Captures_t :=
  match c with
  | [] => []
  | e :: c' =>
      if decide (e.1 = it)
      then if decide (e.2 = tile) then c' else e :: erase_scan it tile c'
      else e :: erase_scan it tile c'
  end.

Definition removeCapturable (k tile : Position_t) (b : Board) : Board :=
  match pieces b !! k with
  | Some pc => set_captures (erase_scan (pieces_find b (p pc)) tile) b
  | None => b
  end.

(** [Board::getInteraction<InteractionT>], with [t] for
    [typeid(InteractionT)]: the board after the call and the instance the
    returned reference designates, the one stored under [t]. *)
Definition getInteraction (t : type_index) (b : Board) : Board * IState :=
  match interactions b !! t with
  | Some i => (b, i)
  | None =>
      let i := new_Interaction rules t b in
      (set_interactions (insert t i) b, i)
  end.

(** One call made by a hook of the piece stored under [k]. *)
Definition exec1 (k : Position_t) (a : Action) (b : Board) : Board :=
  match a with
  | AddTrajectory tile => addTrajectory k tile b
  | RemoveTrajectory tile => removeTrajectory k tile b
  | AddCapturing tile => addCapturing k tile b
  | RemoveCapturing tile => removeCapturing k tile b
  | AddCapturable tile => addCapturable k tile b
  | RemoveCapturable tile => removeCapturable k tile b
  | Interact t f =>
      let '(b', i) := getInteraction t b in
      set_interactions (insert t (f i)) b'
  end.

Definition exec (k : Position_t) (acts : list Action) (b : Board) : Board :=
  foldl (λ b a, exec1 k a b) b acts.

(** [Piece::makeTrajectory] up to the call of the hook: both sets are
    cleared and [addCapturable(pos)] is called. *)
Definition makeTrajectory_begin (k : Position_t) (b : Board) : Board :=
  match pieces b !! k with
  | Some pc =>
      let b1 := upd_piece k (set_traj (λ _, ∅)) b in
      let b2 := upd_piece k (set_capt (λ _, ∅)) b1 in
      addCapturable k (p pc) b2
  | None => b
  end.

(** [Piece::makeTrajectory] *)
Definition makeTrajectory (k : Position_t) (b : Board) : Board :=
  match pieces b !! k with
  | Some pc =>
      let b' := makeTrajectory_begin k b in
      exec k (calcTrajectory rules (kind pc) b' k) b'
  | None => b
  end.

(** [Piece::move] *)
Definition Piece_move (k to : Position_t) (b : Board) : Board :=
  match pieces b !! k with
  | Some pc =>
      let from := p pc in
      let b1 := upd_piece k (set_p to) b in
      let b2 := exec k (moveUpdate rules (kind pc) b1 k from to) b1 in
      let b3 := upd_piece k (set_movenum size_t_incr) b2 in
      makeTrajectory k b3
  | None => b
  end.

(** The keys of the position table from [begin()] to [end()]. *)
Definition keys_in_order (m : gmap Position_t Piece) : list Position_t :=
  merge_sort Position_le (map_to_list m).*1.

(** The second loop of the constructor: [makeTrajectory] on every piece,
    in the order of the table. *)
Definition recalculate (b : Board) : Board :=
  foldl (λ b k, makeTrajectory k b) b (keys_in_order (pieces b)).

(** The [getInteraction] calls a factory function makes on the board. *)
Definition bind_interactions (ts : list type_index) (b : Board) : Board :=
  foldl (λ b t, (getInteraction t b).1) b ts.

(** The first loop of the constructor: one slot of the layout after the
    other, [factory.at] throwing when the class is not a key and the
    factory function throwing what it throws. The function runs on the
    table as it is before the slot is filled; were [pieces[slot.first]]
    evaluated first (the order was unspecified before C++17), the slot
    would exist and hold no piece, which [at] does not tell from a missing
    key. *)
Fixpoint place (fact : Factory_t IState)
    (slots : list (Position_t * (PieceClass_t * Suit))) (b : Board)
    : result Board :=
  match slots with
  | [] => Ok b
  | slot :: slots' =>
      match fact !! slot.2.1 with
      | Some make =>
          match make b slot.1 slot.2.2 with
          | Ok (pc, ts) =>
              place fact slots'
                (set_pieces (insert slot.1 pc) (bind_interactions ts b))
          | Throw e => Throw e
          end
      | None => Throw out_of_range
      end
  end.

Definition Board_empty (conf : BoardConfig) : Board :=
  {| config := conf; pieces := ∅; captures := []; interactions := ∅ |}.

(** [Board::Board] *)
Definition Board_ctor (conf : BoardConfig) (fact : Factory_t IState)
    : result Board :=
  match place fact (initialLayout conf) (Board_empty conf) with
  | Ok b => Ok (recalculate b)
  | Throw e => Throw e
  end.

(** [Board::at], the two overloads. [pieces[pos]] is reached only when
    [find] found the key, so that [operator[]] inserts nothing. *)
Definition Board_at (pos : Position_t) (b : Board) : Board * option Piece :=
  match pieces_find b pos with
  | End => (b, None)
  | It _ => (b, pieces b !! pos)
  end.

Definition Board_at_const (pos : Position_t) (b : Board) : option Piece :=
  match pieces_find b pos with
  | End => None
  | It _ => pieces b !! pos
  end.

(** Modelled from the spec: [Board::update] is only declared in Board.hpp
    (its body is in Board.cpp, not among the sources). The spec has
    [on_any_move] invoked, after the mover's own hook, on all the other
    pieces in position order; [m] is the square of the piece that moved. *)
Definition tick_others (m : Position_t) (b : Board) : Board :=
  foldl
    (λ b k,
       match pieces b !! k with
       | Some pc => exec k (tick rules (kind pc) b k m) b
       | None => b
       end)
    b (filter (λ k, k ≠ m) (keys_in_order (pieces b))).

(** Modelled from the spec: [Board::move] is only declared in Board.hpp (its
    body is in Board.cpp, not among the sources). The spec: it succeeds only
    if [source] is occupied and [target] is in that piece's trajectory; on
    success the entry at [source] is removed from the position table and the
    piece re-inserted at [target], the piece goes through its move protocol
    ([Piece::move] above: position, [moveUpdate], move count), the other
    pieces are notified, and the recalculation pass runs over every piece in
    position order; on failure nothing is mutated. *)
Definition Board_move (source target : Position_t) (b : Board) : Board * bool :=
  match pieces b !! source with
  | Some pc =>
      if decide (target ∈ traj pc)
      then
        let b1 := set_pieces (λ m, <[target := pc]> (delete source m)) b in
        let b2 := Piece_move target target b1 in
        let b3 := tick_others target b2 in
        (recalculate b3, true)
      else (b, false)
  | None => (b, false)
  end.

End Operations.

Arguments set_pieces {IState} _ _.
Arguments set_captures {IState} _ _.
Arguments set_interactions {IState} _ _.
Arguments upd_piece {IState} _ _ _.
Arguments valid {IState} _ _.
Arguments pieces_find {IState} _ _.
Arguments addTrajectory {IState} _ _ _.
Arguments removeTrajectory {IState} _ _ _.
Arguments addCapturing {IState} _ _ _.
Arguments removeCapturing {IState} _ _ _.
Arguments addCapturable {IState} _ _ _.
Arguments removeCapturable {IState} _ _ _.
Arguments getInteraction {IState} _ _ _.
Arguments exec1 {IState} _ _ _ _.
Arguments exec {IState} _ _ _ _.
Arguments makeTrajectory_begin {IState} _ _.
Arguments makeTrajectory {IState} _ _ _.
Arguments Piece_move {IState} _ _ _ _.
Arguments recalculate {IState} _ _.
Arguments bind_interactions {IState} _ _ _.
Arguments place {IState} _ _ _ _.
Arguments Board_empty {IState} _.
Arguments Board_ctor {IState} _ _ _.
Arguments Board_at {IState} _ _.
Arguments Board_at_const {IState} _ _.
Arguments tick_others {IState} _ _ _.
Arguments Board_move {IState} _ _ _ _.

(** ** What the statements speak of *)

Section Observations.
Variable IState : Type.
Variable rules : Rules IState.

(** The effect of one call of a hook, and of all of them, on the members of
    the hook's own piece. *)
Definition derive1 (c : BoardConfig) (a : Action IState) (pc : Piece) : Piece :=
  match a with
  | AddTrajectory tile =>
      if valid_in c tile then set_traj (λ t, {[tile]} ∪ t) pc else pc
  | RemoveTrajectory tile => set_traj (λ t, t ∖ {[tile]}) pc
  | AddCapturing tile =>
      if valid_in c tile then set_capt (λ t, {[tile]} ∪ t) pc else pc
  | RemoveCapturing tile => set_capt (λ t, t ∖ {[tile]}) pc
  | _ => pc
  end.

Definition derive (c : BoardConfig) (acts : list (Action IState)) (pc : Piece)
    : Piece :=
  foldl (λ pc a, derive1 c a pc) pc acts.

(** The entries that the [addCapturable] calls among [acts] insert, for a
    piece whose node is [it]. *)
Definition registered (it : Pieces_t_iterator) (c : BoardConfig)
    (acts : list (Action IState)) : list (Pieces_t_iterator * Position_t) :=
  flat_map
    (λ a, match a with
          | AddCapturable tile => if valid_in c tile then [(it, tile)] else []
          | _ => []
          end)
    acts.

(** The entries that one [makeTrajectory] inserts: the one for the piece's
    own square and those of its hook. *)
Definition makeTrajectory_registers (k : Position_t) (b : Board IState)
    : list (Pieces_t_iterator * Position_t) :=
  match pieces b !! k with
  | Some pc =>
      let it := pieces_find b (p pc) in
      (if valid b (p pc) then [(it, p pc)] else [])
      ++ registered it (config b)
           (calcTrajectory rules (kind pc) (makeTrajectory_begin k b) k)
  | None => []
  end.

(** The entries inserted during a pass over the keys [ks]. *)
Fixpoint pass_registers (ks : list Position_t) (b : Board IState)
    : list (Pieces_t_iterator * Position_t) :=
  match ks with
  | [] => []
  | k :: ks' =>
      makeTrajectory_registers k b
      ++ pass_registers ks' (makeTrajectory rules k b)
  end.

Definition recalculate_registers (b : Board IState)
    : list (Pieces_t_iterator * Position_t) :=
  pass_registers (keys_in_order (pieces b)) b.

(** What [makeTrajectory] does to its piece before anything else. *)
Definition clear_derived (pc : Piece) : Piece :=
  set_capt (λ _, ∅) (set_traj (λ _, ∅) pc).

(** Two states of a piece that differ in the derived sets at most. *)
Definition same_identity (pc pc' : Piece) : Prop :=
  p pc' = p pc ∧ s pc' = s pc ∧ kind pc' = kind pc ∧ movenum pc' = movenum pc.

(** Two boards with the same configuration and the same pieces on the same
    keys, up to their derived sets. *)
Definition derived_only (b b' : Board IState) : Prop :=
  config b' = config b
  ∧ ∀ k, option_Forall2 same_identity (pieces b !! k) (pieces b' !! k).

(** The factory functions of the classes the slots name return, on
    whatever board they are called. *)
Definition factory_returns (fact : Factory_t IState)
    (slots : list (Position_t * (PieceClass_t * Suit))) : Prop :=
  ∀ slot make (b : Board IState), slot ∈ slots →
    fact !! slot.2.1 = Some make →
    ∃ pc ts, make b slot.1 slot.2.2 = Ok (pc, ts).

(** Every piece is stored under its own square. *)
Definition occupancy (b : Board IState) : Prop :=
  ∀ k pc, pieces b !! k = Some pc → p pc = k.

(** Both sets of the piece hold squares of the board only. *)
Definition piece_in_bounds (c : BoardConfig) (pc : Piece) : Prop :=
  ∀ tile, tile ∈ traj pc ∪ capt pc → valid_in c tile = true.

Definition derived_in_bounds (b : Board IState) : Prop :=
  ∀ k pc, pieces b !! k = Some pc → piece_in_bounds (config b) pc.

(** The hook that computes the trajectory looks at the configuration and at
    the position table only, not at the capture relation or the registry. *)
Definition reads_table_only : Prop :=
  ∀ K (b1 b2 : Board IState) k,
    config b1 = config b2 → pieces b1 = pieces b2 →
    calcTrajectory rules K b1 k = calcTrajectory rules K b2 k.

(** No call in [acts] is a [removeCapturable]; no hook that computes a
    trajectory makes one. *)
Definition keeps_entries (acts : list (Action IState)) : Prop :=
  Forall (λ a, match a with RemoveCapturable _ => False | _ => True end) acts.

Definition rules_keep_entries : Prop :=
  ∀ K (b : Board IState) k, keeps_entries (calcTrajectory rules K b k).

(** No call in [acts] updates the interaction of type [t]. *)
Definition quiet (t : type_index) (acts : list (Action IState)) : Prop :=
  Forall (λ a, match a with Interact t' _ => t' ≠ t | _ => True end) acts.

Definition rules_quiet (t : type_index) : Prop :=
  ∀ K (b : Board IState) k from to,
    quiet t (calcTrajectory rules K b k)
    ∧ quiet t (moveUpdate rules K b k from to)
    ∧ quiet t (tick rules K b k to).

(** What the classes of Board.hpp let a caller do, one call at a time. *)
Inductive Op :=
  | OpMakeTrajectory (k : Position_t)
  | OpPieceMove (k to : Position_t)
  | OpRecalculate
  | OpGetInteraction (t : type_index)
  | OpAt (pos : Position_t).

Definition run_op (o : Op) (b : Board IState) : Board IState :=
  match o with
  | OpMakeTrajectory k => makeTrajectory rules k b
  | OpPieceMove k to => Piece_move rules k to b
  | OpRecalculate => recalculate rules b
  | OpGetInteraction t => (getInteraction rules t b).1
  | OpAt pos => (Board_at pos b).1
  end.

Definition run_ops (os : list Op) (b : Board IState) : Board IState :=
  foldl (λ b o, run_op o b) b os.

(** The number of relocations of the piece under [k] among [os]. *)
Definition is_relocation (k : Position_t) (o : Op) : bool :=
  match o with
  | OpPieceMove k' _ => bool_decide (k' = k)
  | _ => false
  end.

Definition relocations (k : Position_t) (os : list Op) : nat :=
  length (filter (λ o, is_relocation k o = true) os).

End Observations.

Arguments derive1 {IState} _ _ _.
Arguments derive {IState} _ _ _.
Arguments registered {IState} _ _ _.
Arguments makeTrajectory_registers {IState} _ _ _.
Arguments pass_registers {IState} _ _ _.
Arguments recalculate_registers {IState} _ _.
Arguments derived_only {IState} _ _.
Arguments occupancy {IState} _.
Arguments factory_returns {IState} _ _.
Arguments derived_in_bounds {IState} _.
Arguments reads_table_only {IState} _.
Arguments keeps_entries {IState} _.
Arguments rules_keep_entries {IState} _.
Arguments quiet {IState} _ _.
Arguments rules_quiet {IState} _ _.
Arguments run_op {IState} _ _ _.
Arguments run_ops {IState} _ _ _.

(** ** Concrete rules, factories and boards

    The data the closed statements further down are evaluated on. *)

Local Open Scope string_scope.

(** No class overrides anything with effect: every hook returns at once. *)
Definition idle_rules : Rules unit :=
  {| calcTrajectory := λ _ _ _, [];
     moveUpdate := λ _ _ _ _ _, [];
     tick := λ _ _ _ _, [];
     new_Interaction := λ _ _, tt |}.

(** A sliding piece: the squares of its row and of its column, up to eight
    steps away, are candidates whether or not they are on the board. The
    interaction of type "Castling" counts the moves it has seen. *)
Definition line (pos : Position_t) : list Position_t :=
  flat_map
    (λ d : Z, [(pos.1 + d, pos.2); (pos.1 - d, pos.2);
               (pos.1, pos.2 + d); (pos.1, pos.2 - d)])
    [1; 2; 3; 4; 5; 6; 7; 8].

Definition slider_rules : Rules nat :=
  {| calcTrajectory := λ _ b k,
       match pieces b !! k with
       | Some pc => AddTrajectory <$> line (p pc)
       | None => []
       end;
     moveUpdate := λ _ _ _ _ _, [Interact "Castling" S];
     tick := λ _ _ _ _, [];
     new_Interaction := λ _ _, 0%nat |}.

(** A hook that looks at the capture relation: its only candidate is the
    square of row 0 whose column is the number of entries it finds. *)
Definition counting_rules : Rules unit :=
  {| calcTrajectory := λ _ b _,
       [AddTrajectory (Z.of_nat (length (captures b)), 0)];
     moveUpdate := λ _ _ _ _ _, [];
     tick := λ _ _ _ _, [];
     new_Interaction := λ _ _, tt |}.

Definition rook_factory (IState : Type) : Factory_t IState :=
  {[ "Rook" := λ _ pos su, Ok (Piece_ctor pos su "Rook", ["Castling"]) ]}.

Definition conf_rook_corner : BoardConfig :=
  {| boardWidth := 8; boardHeight := 8;
     initialLayout := [((0, 0), ("Rook", "White"))] |}.

Definition conf_two_rooks : BoardConfig :=
  {| boardWidth := 8; boardHeight := 8;
     initialLayout := [((0, 0), ("Rook", "White")); ((3, 4), ("Rook", "Black"))] |}.

(** A factory whose function for kings throws. *)
Definition flawed_factory : Factory_t nat :=
  {[ "Rook" := λ _ pos su, Ok (Piece_ctor pos su "Rook", ["Castling"]);
     "King" := λ _ _ _, Throw (thrown "bad_alloc") ]}.

(** A king before a piece of a class the factory does not know. *)
Definition conf_king_first : BoardConfig :=
  {| boardWidth := 8; boardHeight := 8;
     initialLayout := [((4, 0), ("King", "White")); ((1, 0), ("Wizard", "Black"))] |}.

(** A layout that names a class the factory does not know. *)
Definition conf_unknown_class : BoardConfig :=
  {| boardWidth := 8; boardHeight := 8;
     initialLayout := [((0, 0), ("Rook", "White")); ((1, 0), ("Wizard", "Black"))] |}.

(** A layout that puts a piece next to the board, on column 8 of 8. *)
Definition conf_off_board : BoardConfig :=
  {| boardWidth := 8; boardHeight := 8;
     initialLayout := [((8, 0), ("Rook", "White"))] |}.

(** The board with one rook in the corner, before any pass. *)
Definition board_rook_corner (IState : Type) : Board IState :=
  {| config := conf_rook_corner;
     pieces := {[ (0, 0) := Piece_ctor (0, 0) "White" "Rook" ]};
     captures := [];
     interactions := ∅ |}.

(** The same rook, off the board. *)
Definition board_off_board (IState : Type) : Board IState :=
  {| config := conf_off_board;
     pieces := {[ (8, 0) := Piece_ctor (8, 0) "White" "Rook" ]};
     captures := [];
     interactions := ∅ |}.

(** A rook in the corner and, in the capture relation, the entry of a piece
    that stood on (5, 5) and is no longer in the position table. *)
Definition board_stale_entry (IState : Type) : Board IState :=
  {| config := conf_rook_corner;
     pieces := {[ (0, 0) := Piece_ctor (0, 0) "White" "Rook" ]};
     captures := [(It (5, 5), (5, 5))];
     interactions := ∅ |}.

Definition corner_rook : Piece := Piece_ctor (0, 0) "White" "Rook".

(** The call [Board::move] makes on the piece it has just stored under
    (0, 7). *)
Definition first_move : list Op := [OpPieceMove (0, 7) (0, 7)].

(** The rook of the corner as [Board::move] hands it to [Piece::move]:
    already stored under the target square (0, 7), its [pos] still (0, 0). *)
Definition board_rook_rekeyed (IState : Type) : Board IState :=
  {| config := conf_rook_corner;
     pieces := {[ (0, 7) := Piece_ctor (0, 0) "White" "Rook" ]};
     captures := [];
     interactions := ∅ |}.

(** Two rooks and a capture relation in which the rook of the corner is
    registered twice for (1, 1). *)
Definition board_duplicates (IState : Type) : Board IState :=
  {| config := conf_two_rooks;
     pieces := {[ (0, 0) := Piece_ctor (0, 0) "White" "Rook";
                  (3, 4) := Piece_ctor (3, 4) "Black" "Rook" ]};
     captures := [(It (3, 4), (1, 1)); (It (0, 0), (1, 1));
                  (It (0, 0), (2, 2)); (It (0, 0), (1, 1))];
     interactions := ∅ |}.

(** The boards the constructor builds from two of the layouts. *)
Definition built_two_rooks : Board unit :=
  {| config := conf_two_rooks;
     pieces := {[ (0, 0) := Piece_ctor (0, 0) "White" "Rook";
                  (3, 4) := Piece_ctor (3, 4) "Black" "Rook" ]};
     captures := [(It (0, 0), (0, 0)); (It (3, 4), (3, 4))];
     interactions := {[ "Castling" := tt ]} |}.

Definition placed_rook_corner : Board nat :=
  {| config := conf_rook_corner;
     pieces := {[ (0, 0) := Piece_ctor (0, 0) "White" "Rook" ]};
     captures := [];
     interactions := {[ "Castling" := 0%nat ]} |}.

Definition built_sliding_rook : Board nat :=
  recalculate slider_rules placed_rook_corner.

Local Close Scope string_scope.

(** ** Properties *)

Section Properties.
Variable IState : Type.
Variable rules : Rules IState.

Implicit Types (b : Board IState) (k tile pos : Position_t) (pc : Piece).
Implicit Types (a : Action IState) (acts : list (Action IState)).
Implicit Types (c : list (Pieces_t_iterator * Position_t)).

(** *** [Board::at] *)

Lemma pieces_find_It b pos key :
  pieces_find b pos = It key → key = pos ∧ is_Some (pieces b !! pos).
Proof.
  unfold pieces_find. destruct (pieces b !! pos) eqn:E; [|done].
  intros [= <-]. eauto.
Qed.

Lemma pieces_find_End b pos : pieces_find b pos = End ↔ pieces b !! pos = None.
Proof. unfold pieces_find. by destruct (pieces b !! pos). Qed.

(** C9: [Board::at] returns null exactly when the square is not a key of the
    position table, otherwise the piece stored under that key; the board is
    left as it was. The const overload returns the same. A square off the
    board is not a key, and the result null, when every piece stands on the
    board. *)
Theorem Board_at_lookup b pos :
  ((Board_at pos b).2 = None ↔ pos ∉ dom (pieces b))
  ∧ (∀ pc, pieces b !! pos = Some pc → (Board_at pos b).2 = Some pc)
  ∧ (Board_at pos b).1 = b
  ∧ Board_at_const pos b = (Board_at pos b).2
  ∧ ((∀ k, k ∈ dom (pieces b) → valid b k = true) →
       valid b pos = false → (Board_at pos b).2 = None).
Proof.
  assert (((Board_at pos b).2 = None ↔ pos ∉ dom (pieces b))
          ∧ (∀ pc, pieces b !! pos = Some pc → (Board_at pos b).2 = Some pc)
          ∧ (Board_at pos b).1 = b
          ∧ Board_at_const pos b = (Board_at pos b).2) as (H1 & H2 & H3 & H4).
  { unfold Board_at, Board_at_const.
    destruct (pieces_find b pos) as [key|] eqn:E; simpl.
    - apply pieces_find_It in E as [-> [pc Hpc]].
      rewrite not_elem_of_dom, Hpc. split_and!; [naive_solver|done..].
    - apply pieces_find_End in E.
      rewrite not_elem_of_dom, E. split_and!; [naive_solver|done..]. }
  split_and!; try done.
  intros Hon Hoff. apply H1. intros Hin. apply Hon in Hin. congruence.
Qed.

(** *** [Piece::removeCapturable] *)

Lemma erase_scan_absent it tile c :
  (it, tile) ∉ c → erase_scan it tile c = c.
Proof.
  induction c as [|[it' tile'] c IH]; [done|]. intros Hnot.
  apply not_elem_of_cons in Hnot as [Hne Hnot]. simpl.
  repeat case_decide; subst; try congruence; by rewrite IH.
Qed.

Lemma erase_scan_first it tile c :
  (it, tile) ∈ c →
  ∃ c1 c2, c = c1 ++ ((it, tile) :: c2) ∧ ((it, tile) ∉ c1)
           ∧ erase_scan it tile c = c1 ++ c2.
Proof.
  induction c as [|[it' tile'] c IH]; [by intros ?%elem_of_nil|].
  intros Hin. simpl.
  destruct (decide (it' = it)) as [->|Hit];
    [destruct (decide (tile' = tile)) as [->|Htile]|].
  - exists [], c. split_and!; [done|apply not_elem_of_nil|done].
  - apply elem_of_cons in Hin as [[=]|Hin]; [congruence|].
    destruct (IH Hin) as (c1 & c2 & -> & Hc1 & ->).
    exists ((it, tile') :: c1), c2. split_and!; [done| |done].
    apply not_elem_of_cons. split; [congruence|done].
  - apply elem_of_cons in Hin as [[=]|Hin]; [congruence|].
    destruct (IH Hin) as (c1 & c2 & -> & Hc1 & ->).
    exists ((it', tile') :: c1), c2. split_and!; [done| |done].
    apply not_elem_of_cons. split; [congruence|done].
Qed.

Lemma erase_scan_others it tile c :
  filter (λ e, e ≠ (it, tile)) (erase_scan it tile c)
  = filter (λ e, e ≠ (it, tile)) c.
Proof.
  induction c as [|[it' tile'] c IH]; [done|]. simpl.
  destruct (decide (it' = it)) as [->|Hit];
    [destruct (decide (tile' = tile)) as [->|Htile]|].
  - by rewrite filter_cons_False by naive_solver.
  - by rewrite !filter_cons_True, IH by congruence.
  - by rewrite !filter_cons_True, IH by congruence.
Qed.

(** C10: one call of [removeCapturable] erases the first stored entry of
    this piece for this square and no other entry: if there is none the
    relation is unchanged, copies stored after the first stay, and so does
    every entry of another piece or another square, in its place. Nothing
    else on the board changes. *)
Theorem removeCapturable_erases_first b k tile pc :
  pieces b !! k = Some pc →
  let it := pieces_find b (p pc) in
  let b' := removeCapturable k tile b in
  ((it, tile) ∉ captures b → captures b' = captures b)
  ∧ ((it, tile) ∈ captures b →
       ∃ c1 c2, captures b = c1 ++ ((it, tile) :: c2) ∧ ((it, tile) ∉ c1)
                ∧ captures b' = c1 ++ c2)
  ∧ filter (λ e, e ≠ (it, tile)) (captures b')
    = filter (λ e, e ≠ (it, tile)) (captures b)
  ∧ (length (captures b) ≤ S (length (captures b')))%nat
  ∧ pieces b' = pieces b ∧ interactions b' = interactions b
  ∧ config b' = config b.
Proof.
  intros Hk it b'. subst b'. unfold removeCapturable. rewrite Hk. simpl.
  fold it. split_and!; try done.
  - apply erase_scan_absent.
  - apply erase_scan_first.
  - apply erase_scan_others.
  - destruct (decide ((it, tile) ∈ captures b)) as [Hin|Hnot].
    + destruct (erase_scan_first _ _ _ Hin) as (c1 & c2 & -> & _ & ->).
      rewrite !length_app. simpl. lia.
    + rewrite erase_scan_absent by done. lia.
Qed.

(** *** What the primitives and the hooks leave alone *)

(** The primitives of [Piece], opened up to the writes they make. *)
Ltac open_primitives :=
  unfold addTrajectory, removeTrajectory, addCapturing, removeCapturing,
    addCapturable, removeCapturable, valid, upd_piece.

Lemma valid_config b1 b2 tile :
  config b1 = config b2 → valid b1 tile = valid b2 tile.
Proof. unfold valid. by intros ->. Qed.

Lemma pieces_find_dom b1 b2 pos :
  dom (pieces b1) = dom (pieces b2) → pieces_find b1 pos = pieces_find b2 pos.
Proof.
  intros Hdom. unfold pieces_find.
  destruct (pieces b1 !! pos) eqn:E1, (pieces b2 !! pos) eqn:E2; try done.
  - apply mk_is_Some, elem_of_dom in E1. rewrite Hdom in E1.
    apply elem_of_dom in E1 as [? ?]. congruence.
  - apply mk_is_Some, elem_of_dom in E2. rewrite <- Hdom in E2.
    apply elem_of_dom in E2 as [? ?]. congruence.
Qed.

Lemma derive1_identity (c : BoardConfig) a pc :
  p (derive1 c a pc) = p pc ∧ s (derive1 c a pc) = s pc
  ∧ kind (derive1 c a pc) = kind pc ∧ movenum (derive1 c a pc) = movenum pc.
Proof. destruct a; simpl; try case_match; done. Qed.

Lemma derive_identity (c : BoardConfig) acts pc :
  p (derive c acts pc) = p pc ∧ s (derive c acts pc) = s pc
  ∧ kind (derive c acts pc) = kind pc ∧ movenum (derive c acts pc) = movenum pc.
Proof.
  revert pc. induction acts as [|a acts IH]; intros pc; [done|].
  unfold derive in *. simpl.
  destruct (IH (derive1 c a pc)) as (-> & -> & -> & ->).
  apply derive1_identity.
Qed.

Lemma getInteraction_frame t b :
  config (getInteraction rules t b).1 = config b
  ∧ pieces (getInteraction rules t b).1 = pieces b
  ∧ captures (getInteraction rules t b).1 = captures b.
Proof. unfold getInteraction. by destruct (interactions b !! t). Qed.

Lemma exec1_config k a b : config (exec1 rules k a b) = config b.
Proof.
  destruct a as [tile|tile|tile|tile|tile|tile|t f]; simpl;
    [open_primitives; repeat case_match; done..|].
  destruct (getInteraction_frame t b) as (Hc & _).
  by destruct (getInteraction rules t b).
Qed.

Lemma exec1_pieces k a b :
  pieces (exec1 rules k a b) = alter (derive1 (config b) a) k (pieces b).
Proof.
  destruct a as [tile|tile|tile|tile|tile|tile|t f]; simpl;
    [open_primitives; unfold derive1;
     repeat case_match; simpl; try done; symmetry; by apply alter_id..|].
  destruct (getInteraction_frame t b) as (_ & Hp & _).
  destruct (getInteraction rules t b). simpl in *. rewrite Hp.
  symmetry. by apply alter_id.
Qed.

Lemma exec_config k acts b : config (exec rules k acts b) = config b.
Proof.
  revert b. induction acts as [|a acts IH]; intros b; [done|].
  unfold exec in *. simpl. by rewrite IH, exec1_config.
Qed.

Lemma exec_pieces k acts b :
  pieces (exec rules k acts b) = alter (derive (config b) acts) k (pieces b).
Proof.
  revert b. induction acts as [|a acts IH]; intros b.
  - simpl. symmetry. by apply alter_id.
  - unfold exec in *. simpl.
    rewrite IH, exec1_config, exec1_pieces, alter_alter_eq. done.
Qed.

Lemma exec_dom k acts b : dom (pieces (exec rules k acts b)) = dom (pieces b).
Proof. rewrite exec_pieces. apply dom_alter_L. Qed.


(** *** The capture relation under the hooks *)

Lemma erase_scan_elem it tile c e : e ∈ erase_scan it tile c → e ∈ c.
Proof.
  induction c as [|e' c IH]; [done|]. simpl.
  destruct (decide (e'.1 = it)); [destruct (decide (e'.2 = tile))|];
    rewrite ?elem_of_cons; tauto.
Qed.

Lemma addCapturable_captures k tile b pc :
  pieces b !! k = Some pc →
  captures (addCapturable k tile b)
  = captures b ++ (if valid b tile then [(pieces_find b (p pc), tile)] else []).
Proof.
  intros Hk. unfold addCapturable. rewrite Hk.
  destruct (valid b tile); simpl; [done|by rewrite app_nil_r].
Qed.

Lemma exec1_captures_sub k a b pc e :
  pieces b !! k = Some pc →
  e ∈ captures (exec1 rules k a b) →
  e ∈ captures b ∨ e ∈ registered (pieces_find b (p pc)) (config b) [a].
Proof.
  intros Hk.
  destruct a as [tile|tile|tile|tile|tile|tile|t f]; simpl;
    try (unfold addTrajectory, removeTrajectory, addCapturing, removeCapturing,
           removeCapturable, valid, upd_piece;
         repeat case_match; simpl; by eauto using erase_scan_elem).
  - rewrite (addCapturable_captures _ _ _ _ Hk). unfold valid, registered.
    simpl. rewrite app_nil_r, elem_of_app. tauto.
  - destruct (getInteraction_frame t b) as (_ & _ & Hc).
    destruct (getInteraction rules t b). simpl in *. rewrite Hc. tauto.
Qed.

Lemma exec_captures_sub k acts b pc e :
  pieces b !! k = Some pc →
  e ∈ captures (exec rules k acts b) →
  e ∈ captures b ∨ e ∈ registered (pieces_find b (p pc)) (config b) acts.
Proof.
  revert b pc. induction acts as [|a acts IH]; intros b pc Hk; [by left|].
  unfold exec in *. simpl. intros He.
  assert (pieces (exec1 rules k a b) !! k = Some (derive1 (config b) a pc))
    as Hk' by (by rewrite exec1_pieces, lookup_alter_eq, Hk).
  apply (IH _ _ Hk') in He as [He|He].
  - apply (exec1_captures_sub _ _ _ _ _ Hk) in He as [He|He]; [by left|].
    right. unfold registered in *. simpl in *.
    rewrite app_nil_r in He. apply elem_of_app. by left.
  - right. unfold registered in *. simpl. apply elem_of_app. right.
    destruct (derive1_identity (config b) a pc) as (Hp & _).
    rewrite Hp, exec1_config in He.
    erewrite pieces_find_dom; [exact He|].
    rewrite exec1_pieces. symmetry. apply dom_alter_L.
Qed.

Lemma registered_shape it (c : BoardConfig) acts e :
  e ∈ registered it c acts → ∃ tile, e = (it, tile) ∧ valid_in c tile = true.
Proof.
  unfold registered. rewrite list_elem_of_In, in_flat_map.
  intros (a & _ & Ha). destruct a; try done.
  destruct (valid_in c tile) eqn:E; [|done].
  destruct Ha as [<-|[]]. eauto.
Qed.

Lemma registered_cons it (c : BoardConfig) a acts :
  registered it c (a :: acts) = registered it c [a] ++ registered it c acts.
Proof. unfold registered. simpl. by rewrite app_nil_r. Qed.

Lemma exec1_captures_exact k a b pc :
  pieces b !! k = Some pc → keeps_entries [a] →
  captures (exec1 rules k a b)
  = captures b ++ registered (pieces_find b (p pc)) (config b) [a].
Proof.
  intros Hk [Ha _]%Forall_cons_1.
  destruct a as [tile|tile|tile|tile|tile|tile|t f]; simpl; try done;
    try (unfold addTrajectory, removeTrajectory, addCapturing, removeCapturing,
           valid, upd_piece;
         repeat case_match; simpl; by rewrite app_nil_r).
  - rewrite (addCapturable_captures _ _ _ _ Hk). unfold valid, registered.
    simpl. by rewrite app_nil_r.
  - destruct (getInteraction_frame t b) as (_ & _ & Hc).
    destruct (getInteraction rules t b). simpl in *.
    by rewrite Hc, app_nil_r.
Qed.

Lemma exec_captures_exact k acts b pc :
  pieces b !! k = Some pc → keeps_entries acts →
  captures (exec rules k acts b)
  = captures b ++ registered (pieces_find b (p pc)) (config b) acts.
Proof.
  revert b pc. induction acts as [|a acts IH]; intros b pc Hk Hkeep.
  - simpl. by rewrite app_nil_r.
  - apply Forall_cons_1 in Hkeep as [Ha Hkeep].
    assert (pieces (exec1 rules k a b) !! k = Some (derive1 (config b) a pc))
      as Hk' by (by rewrite exec1_pieces, lookup_alter_eq, Hk).
    change (exec rules k (a :: acts) b)
      with (exec rules k acts (exec1 rules k a b)).
    rewrite (IH _ _ Hk' Hkeep), (exec1_captures_exact _ _ _ _ Hk)
      by (by apply Forall_cons).
    destruct (derive1_identity (config b) a pc) as (-> & _).
    rewrite exec1_config, (registered_cons _ _ a acts), <- app_assoc.
    do 2 f_equal. apply (f_equal (λ it, registered it (config b) acts)).
    apply pieces_find_dom. rewrite exec1_pieces. apply dom_alter_L.
Qed.

(** *** The registry under the hooks *)

Lemma getInteraction_keeps t t' b :
  is_Some (interactions b !! t') →
  interactions (getInteraction rules t b).1 !! t' = interactions b !! t'.
Proof.
  intros [i Hi]. unfold getInteraction.
  destruct (interactions b !! t) eqn:E; [done|]. simpl.
  apply lookup_insert_ne. congruence.
Qed.

Lemma getInteraction_other t t' b :
  t' ≠ t →
  interactions (getInteraction rules t b).1 !! t' = interactions b !! t'.
Proof.
  intros Hne. unfold getInteraction.
  destruct (interactions b !! t) eqn:E; [done|]. simpl.
  by apply lookup_insert_ne.
Qed.

Lemma exec1_interactions k a b t :
  quiet t [a] →
  interactions (exec1 rules k a b) !! t = interactions b !! t.
Proof.
  intros Hq%Forall_cons_1. destruct Hq as [Hq _].
  destruct a as [tile|tile|tile|tile|tile|tile|t' f]; simpl;
    [open_primitives; repeat case_match; done..|].
  pose proof (getInteraction_other t' t b (not_eq_sym Hq)) as Ho.
  destruct (getInteraction rules t' b). simpl in *.
  by rewrite lookup_insert_ne.
Qed.

Lemma exec_interactions k acts b t :
  quiet t acts →
  interactions (exec rules k acts b) !! t = interactions b !! t.
Proof.
  revert b. induction acts as [|a acts IH]; intros b Hq; [done|].
  apply Forall_cons_1 in Hq as [Ha Hq].
  unfold exec in *. simpl. rewrite IH by done.
  apply exec1_interactions. by apply Forall_cons.
Qed.


(** *** Boards that differ in derived state only *)

Global Instance same_identity_refl : Reflexive same_identity.
Proof. by intros pc. Qed.

Global Instance same_identity_trans : Transitive same_identity.
Proof.
  intros pc1 pc2 pc3 (? & ? & ? & ?) (? & ? & ? & ?).
  repeat split; congruence.
Qed.

Global Instance derived_only_refl : Reflexive (@derived_only IState).
Proof. intros b. split; [done|]. intros k. by destruct (pieces b !! k); constructor. Qed.

Global Instance derived_only_trans : Transitive (@derived_only IState).
Proof.
  intros b1 b2 b3 [Hc1 H1] [Hc2 H2]. split; [congruence|].
  intros k. specialize (H1 k). specialize (H2 k).
  destruct H1; inversion H2; subst; constructor. by etrans.
Qed.

Lemma derived_only_lookup b b' k pc :
  derived_only b b' → pieces b !! k = Some pc →
  ∃ pc', pieces b' !! k = Some pc' ∧ same_identity pc pc'.
Proof.
  intros [_ H] Hk. specialize (H k). rewrite Hk in H.
  inversion H; subst. eauto.
Qed.

Lemma derived_only_dom b b' : derived_only b b' → dom (pieces b') = dom (pieces b).
Proof.
  intros [_ H]. apply set_eq. intros k. rewrite !elem_of_dom.
  specialize (H k). destruct H; split; intros [? ?]; by eauto.
Qed.

Lemma derived_only_occupancy b b' : derived_only b b' → occupancy b → occupancy b'.
Proof.
  intros [_ H] Hocc k pc' Hk. specialize (H k). rewrite Hk in H.
  inversion H as [pc ? (Hp & _) Hpc|]; subst. rewrite Hp. by apply Hocc.
Qed.

Lemma derived_only_alter b b' k (f : Piece → Piece) :
  config b' = config b → pieces b' = alter f k (pieces b) →
  (∀ pc, same_identity pc (f pc)) → derived_only b b'.
Proof.
  intros Hc Hp Hf. split; [done|]. intros k'. rewrite Hp.
  destruct (decide (k = k')) as [->|Hne].
  - rewrite lookup_alter_eq. destruct (pieces b !! k'); constructor. apply Hf.
  - rewrite lookup_alter_ne by done. by destruct (pieces b !! k'); constructor.
Qed.

Lemma derive_same_identity (c : BoardConfig) acts pc :
  same_identity pc (derive c acts pc).
Proof. apply derive_identity. Qed.

Lemma exec_derived_only k acts b : derived_only b (exec rules k acts b).
Proof.
  eapply derived_only_alter;
    [apply exec_config|apply exec_pieces|apply derive_same_identity].
Qed.

Lemma getInteraction_derived_only t b :
  derived_only b (getInteraction rules t b).1.
Proof.
  destruct (getInteraction_frame t b) as (Hc & Hp & _).
  split; [done|]. intros k. rewrite Hp. by destruct (pieces b !! k); constructor.
Qed.

(** *** [Piece::makeTrajectory] *)

Lemma makeTrajectory_begin_spec k b pc :
  pieces b !! k = Some pc →
  config (makeTrajectory_begin k b) = config b
  ∧ pieces (makeTrajectory_begin k b) = alter clear_derived k (pieces b)
  ∧ captures (makeTrajectory_begin k b)
    = captures b
      ++ (if valid b (p pc) then [(pieces_find b (p pc), p pc)] else [])
  ∧ interactions (makeTrajectory_begin k b) = interactions b.
Proof.
  intros Hk. unfold makeTrajectory_begin. rewrite Hk.
  set (b2 := upd_piece k _ (upd_piece k _ b)).
  assert (pieces b2 = alter clear_derived k (pieces b)) as Hp2.
  { subst b2. unfold upd_piece. simpl. by rewrite alter_alter_eq. }
  assert (pieces b2 !! k = Some (clear_derived pc)) as Hk2
    by (by rewrite Hp2, lookup_alter_eq, Hk).
  unfold addCapturable. rewrite Hk2.
  assert (pieces_find b2 (p pc) = pieces_find b (p pc)) as Hfind.
  { apply pieces_find_dom. rewrite Hp2. apply dom_alter_L. }
  change (valid b2 (p pc)) with (valid b (p pc)).
  destruct (valid b (p pc)); simpl.
  - by rewrite Hfind.
  - by rewrite app_nil_r.
Qed.

Lemma makeTrajectory_absent k b :
  pieces b !! k = None → makeTrajectory rules k b = b.
Proof. intros Hk. unfold makeTrajectory. by rewrite Hk. Qed.

Lemma makeTrajectory_pieces k b pc :
  pieces b !! k = Some pc →
  pieces (makeTrajectory rules k b)
  = alter
      (λ pc0,
         derive (config b)
           (calcTrajectory rules (kind pc) (makeTrajectory_begin k b) k)
           (clear_derived pc0))
      k (pieces b).
Proof.
  intros Hk. unfold makeTrajectory. rewrite Hk.
  destruct (makeTrajectory_begin_spec k b pc Hk) as (Hc & Hp & _).
  by rewrite exec_pieces, Hc, Hp, alter_alter_eq.
Qed.

Lemma makeTrajectory_config k b : config (makeTrajectory rules k b) = config b.
Proof.
  unfold makeTrajectory. destruct (pieces b !! k) as [pc|] eqn:Hk; [|done].
  destruct (makeTrajectory_begin_spec k b pc Hk) as (Hc & _).
  by rewrite exec_config.
Qed.

Lemma makeTrajectory_derived_only k b : derived_only b (makeTrajectory rules k b).
Proof.
  destruct (pieces b !! k) as [pc|] eqn:Hk.
  - eapply derived_only_alter;
      [apply makeTrajectory_config|by apply makeTrajectory_pieces|].
    intros pc0. etrans; [|apply derive_same_identity]. done.
  - by rewrite makeTrajectory_absent.
Qed.

Lemma makeTrajectory_captures_sub k b e :
  e ∈ captures (makeTrajectory rules k b) →
  e ∈ captures b ∨ e ∈ makeTrajectory_registers rules k b.
Proof.
  unfold makeTrajectory, makeTrajectory_registers.
  destruct (pieces b !! k) as [pc|] eqn:Hk; [|by left].
  destruct (makeTrajectory_begin_spec k b pc Hk) as (Hc & Hp & Hcap & _).
  intros He.
  eapply exec_captures_sub in He;
    [|by rewrite Hp, lookup_alter_eq, Hk].
  simpl in He. rewrite Hc, Hcap in He.
  rewrite (pieces_find_dom (makeTrajectory_begin k b) b) in He
    by (rewrite Hp; apply dom_alter_L).
  rewrite !elem_of_app in *. tauto.
Qed.


Lemma makeTrajectory_captures_exact k b :
  rules_keep_entries rules →
  captures (makeTrajectory rules k b)
  = captures b ++ makeTrajectory_registers rules k b.
Proof.
  intros Hkeep. unfold makeTrajectory, makeTrajectory_registers.
  destruct (pieces b !! k) as [pc|] eqn:Hk; [|by rewrite app_nil_r].
  destruct (makeTrajectory_begin_spec k b pc Hk) as (Hc & Hp & Hcap & _).
  rewrite (exec_captures_exact _ _ _ (clear_derived pc))
    by (by rewrite ?Hp, ?lookup_alter_eq, ?Hk).
  simpl. rewrite Hc, Hcap, <- app_assoc.
  rewrite (pieces_find_dom (makeTrajectory_begin k b) b)
    by (rewrite Hp; apply dom_alter_L).
  done.
Qed.

(** *** Bounds of the derived sets *)

Lemma derive1_in_bounds (c : BoardConfig) a pc :
  piece_in_bounds c pc → piece_in_bounds c (derive1 c a pc).
Proof.
  unfold piece_in_bounds. intros Hpc.
  destruct a as [t|t|t|t|t|t|t f]; simpl; try done;
    try (destruct (valid_in c t) eqn:E; [|done]); simpl;
    intros tile Htile;
    (destruct (decide (tile = t)) as [->|Hne];
       [first [done|apply Hpc; set_solver]|apply Hpc; set_solver]).
Qed.

Lemma derive_in_bounds (c : BoardConfig) acts pc :
  piece_in_bounds c pc → piece_in_bounds c (derive c acts pc).
Proof.
  revert pc. induction acts as [|a acts IH]; intros pc Hpc; [done|].
  unfold derive in *. simpl. by apply IH, derive1_in_bounds.
Qed.

Lemma clear_derived_in_bounds (c : BoardConfig) pc :
  piece_in_bounds c (clear_derived pc).
Proof. intros tile. simpl. set_solver. Qed.

Lemma alter_in_bounds b b' k (f : Piece → Piece) :
  config b' = config b → pieces b' = alter f k (pieces b) →
  (∀ pc, piece_in_bounds (config b) pc → piece_in_bounds (config b) (f pc)) →
  derived_in_bounds b → derived_in_bounds b'.
Proof.
  intros Hc Hp Hf Hb k' pc'. rewrite Hc, Hp.
  destruct (decide (k = k')) as [->|Hne].
  - rewrite lookup_alter_eq.
    destruct (pieces b !! k') as [pc|] eqn:Hk; [|done].
    intros [= <-]. eapply Hf, Hb, Hk.
  - rewrite lookup_alter_ne by done. apply Hb.
Qed.

Lemma exec_in_bounds k acts b :
  derived_in_bounds b → derived_in_bounds (exec rules k acts b).
Proof.
  eapply alter_in_bounds; [apply exec_config|apply exec_pieces|].
  intros pc. apply derive_in_bounds.
Qed.

Lemma makeTrajectory_in_bounds_self k b pc' :
  pieces (makeTrajectory rules k b) !! k = Some pc' →
  piece_in_bounds (config b) pc'.
Proof.
  destruct (pieces b !! k) as [pc|] eqn:Hk.
  - rewrite (makeTrajectory_pieces _ _ _ Hk), lookup_alter_eq, Hk.
    intros [= <-]. apply derive_in_bounds, clear_derived_in_bounds.
  - rewrite makeTrajectory_absent by done. congruence.
Qed.

Lemma makeTrajectory_other k k' b :
  k ≠ k' → pieces (makeTrajectory rules k b) !! k' = pieces b !! k'.
Proof.
  intros Hne. destruct (pieces b !! k) as [pc|] eqn:Hk.
  - by rewrite (makeTrajectory_pieces _ _ _ Hk), lookup_alter_ne.
  - by rewrite makeTrajectory_absent.
Qed.

Lemma makeTrajectory_in_bounds k b :
  derived_in_bounds b → derived_in_bounds (makeTrajectory rules k b).
Proof.
  intros Hb k' pc'. rewrite makeTrajectory_config.
  destruct (decide (k = k')) as [->|Hne].
  - apply makeTrajectory_in_bounds_self.
  - rewrite makeTrajectory_other by done. apply Hb.
Qed.

(** *** The pass over the position table *)

Lemma keys_in_order_elem (m : gmap Position_t Piece) k :
  k ∈ keys_in_order m ↔ is_Some (m !! k).
Proof.
  unfold keys_in_order. rewrite merge_sort_Permutation, list_elem_of_fmap.
  split.
  - intros ([k' pc] & -> & Hin). apply elem_of_map_to_list in Hin. eauto.
  - intros [pc Hpc]. exists (k, pc). split; [done|].
    by apply elem_of_map_to_list.
Qed.

Lemma keys_in_order_Permutation (m : gmap Position_t Piece) :
  keys_in_order m ≡ₚ (map_to_list m).*1.
Proof. apply merge_sort_Permutation. Qed.

Lemma keys_in_order_NoDup (m : gmap Position_t Piece) : NoDup (keys_in_order m).
Proof.
  rewrite keys_in_order_Permutation. apply NoDup_fst_map_to_list.
Qed.

Lemma pass_derived_only ks b :
  derived_only b (foldl (λ b k, makeTrajectory rules k b) b ks).
Proof.
  revert b. induction ks as [|k ks IH]; intros b; [done|]. simpl.
  etrans; [apply makeTrajectory_derived_only|apply IH].
Qed.

Lemma pass_captures_sub ks b e :
  e ∈ captures (foldl (λ b k, makeTrajectory rules k b) b ks) →
  e ∈ captures b ∨ e ∈ pass_registers rules ks b.
Proof.
  revert b. induction ks as [|k ks IH]; intros b; [by left|]. simpl.
  intros [He|He]%IH.
  - apply makeTrajectory_captures_sub in He. rewrite elem_of_app. tauto.
  - rewrite elem_of_app. tauto.
Qed.

Lemma pass_captures_exact ks b :
  rules_keep_entries rules →
  captures (foldl (λ b k, makeTrajectory rules k b) b ks)
  = captures b ++ pass_registers rules ks b.
Proof.
  intros Hkeep. revert b. induction ks as [|k ks IH]; intros b; simpl.
  - by rewrite app_nil_r.
  - by rewrite IH, makeTrajectory_captures_exact, app_assoc.
Qed.

Lemma pieces_find_occupied b k :
  is_Some (pieces b !! k) → pieces_find b k = It k.
Proof. intros [pc Hpc]. unfold pieces_find. by rewrite Hpc. Qed.

Lemma makeTrajectory_registers_shape k b e :
  occupancy b → e ∈ makeTrajectory_registers rules k b →
  ∃ tile, e = (It k, tile) ∧ is_Some (pieces b !! k) ∧ valid b tile = true.
Proof.
  intros Hocc. unfold makeTrajectory_registers.
  destruct (pieces b !! k) as [pc|] eqn:Hk; [|by intros ?%elem_of_nil].
  rewrite (Hocc _ _ Hk), pieces_find_occupied by eauto.
  intros [He|He]%elem_of_app.
  - destruct (valid b k) eqn:E; [|by apply elem_of_nil in He].
    apply list_elem_of_singleton in He as ->. eauto.
  - apply registered_shape in He as (tile & -> & Hv). eauto.
Qed.

Lemma pass_registers_shape ks b e :
  occupancy b → e ∈ pass_registers rules ks b →
  ∃ k tile, e = (It k, tile) ∧ is_Some (pieces b !! k) ∧ valid b tile = true.
Proof.
  revert b. induction ks as [|k ks IH]; intros b Hocc;
    [by intros ?%elem_of_nil|].
  simpl. intros [He|He]%elem_of_app.
  - apply makeTrajectory_registers_shape in He as (tile & ? & ? & ?); eauto.
  - pose proof (makeTrajectory_derived_only k b) as Hd.
    apply IH in He as (k' & tile & -> & Hk' & Hv);
      [|by eapply derived_only_occupancy].
    exists k', tile. split_and!; [done| |].
    + apply elem_of_dom. rewrite <- (derived_only_dom _ _ Hd).
      by apply elem_of_dom.
    + by rewrite <- (valid_config (makeTrajectory rules k b) b)
        by apply makeTrajectory_config.
Qed.

Lemma pass_in_bounds ks b k pc' :
  pieces (foldl (λ b k, makeTrajectory rules k b) b ks) !! k = Some pc' →
  k ∈ ks ∨ (∃ pc, pieces b !! k = Some pc ∧ piece_in_bounds (config b) pc) →
  piece_in_bounds (config b) pc'.
Proof.
  revert b. induction ks as [|k0 ks IH]; intros b; simpl.
  - intros Hk [?%elem_of_nil|(pc & Hpc & Hin)]; [done|]. by simplify_eq.
  - intros Hk Hor. rewrite <- (makeTrajectory_config k0 b).
    apply (IH _ Hk). rewrite makeTrajectory_config.
    destruct (decide (k = k0)) as [->|Hne].
    + right.
      destruct (pieces (makeTrajectory rules k0 b) !! k0) as [pc1|] eqn:E.
      * exists pc1. split; [done|]. by eapply makeTrajectory_in_bounds_self.
      * pose proof (pass_derived_only ks (makeTrajectory rules k0 b)) as [_ Hd].
        specialize (Hd k0). rewrite E, Hk in Hd. inversion Hd.
    + destruct Hor as [Hin|(pc & Hpc & Hin)].
      * left. by apply elem_of_cons in Hin as [?|?].
      * right. exists pc. by rewrite makeTrajectory_other.
Qed.

Lemma recalculate_in_bounds b : derived_in_bounds (recalculate rules b).
Proof.
  intros k pc' Hk. unfold recalculate in *.
  destruct (pass_derived_only (keys_in_order (pieces b)) b) as [Hc Hd].
  rewrite Hc. eapply pass_in_bounds; [exact Hk|]. left.
  apply keys_in_order_elem. specialize (Hd k). rewrite Hk in Hd.
  inversion Hd. eauto.
Qed.


(** *** [Piece::move] *)

Lemma Piece_move_absent k to b :
  pieces b !! k = None → Piece_move rules k to b = b.
Proof. intros Hk. unfold Piece_move. by rewrite Hk. Qed.

Lemma Piece_move_spec k to b pc :
  pieces b !! k = Some pc →
  config (Piece_move rules k to b) = config b
  ∧ ∃ f : Piece → Piece,
      pieces (Piece_move rules k to b) = alter f k (pieces b)
      ∧ ∀ pc0, p (f pc0) = to ∧ s (f pc0) = s pc0 ∧ kind (f pc0) = kind pc0
               ∧ movenum (f pc0) = size_t_incr (movenum pc0)
               ∧ piece_in_bounds (config b) (f pc0).
Proof.
  intros Hk. unfold Piece_move. rewrite Hk.
  set (b1 := upd_piece k (set_p to) b).
  set (acts1 := moveUpdate rules (kind pc) b1 k (p pc) to).
  set (b3 := upd_piece k (set_movenum size_t_incr) (exec rules k acts1 b1)).
  assert (config b3 = config b) as Hc3 by (subst b3; simpl; by rewrite exec_config).
  assert (pieces b3
          = alter (λ pc0, set_movenum size_t_incr
                            (derive (config b) acts1 (set_p to pc0)))
              k (pieces b)) as Hp3.
  { subst b3 b1. unfold upd_piece at 1. simpl.
    rewrite exec_pieces. simpl. by rewrite !alter_alter_eq. }
  assert (pieces b3 !! k
          = Some (set_movenum size_t_incr
                    (derive (config b) acts1 (set_p to pc)))) as Hk3
    by (by rewrite Hp3, lookup_alter_eq, Hk).
  split; [by rewrite makeTrajectory_config|].
  rewrite (makeTrajectory_pieces _ _ _ Hk3), Hp3, alter_alter_eq, Hc3.
  eexists. split; [done|]. intros pc0. simpl.
  match goal with |- context [derive ?c ?acts (clear_derived ?x)] =>
    destruct (derive_identity c acts (clear_derived x)) as (-> & -> & -> & ->);
    pose proof (derive_in_bounds c acts _ (clear_derived_in_bounds c x))
  end.
  simpl.
  destruct (derive_identity (config b) acts1 (set_p to pc0))
    as (-> & -> & -> & ->).
  done.
Qed.

Lemma Piece_move_other k k' to b :
  k ≠ k' → pieces (Piece_move rules k to b) !! k' = pieces b !! k'.
Proof.
  intros Hne. destruct (pieces b !! k) as [pc|] eqn:Hk.
  - destruct (Piece_move_spec k to b pc Hk) as (_ & f & -> & _).
    by rewrite lookup_alter_ne.
  - by rewrite Piece_move_absent.
Qed.

Lemma Piece_move_config k to b : config (Piece_move rules k to b) = config b.
Proof.
  destruct (pieces b !! k) as [pc|] eqn:Hk.
  - by destruct (Piece_move_spec k to b pc Hk) as (-> & _).
  - by rewrite Piece_move_absent.
Qed.

(** *** One call after the other *)

Lemma Board_at_same pos b : (Board_at pos b).1 = b.
Proof. unfold Board_at. by destruct (pieces_find b pos). Qed.

Lemma recalculate_derived_only b : derived_only b (recalculate rules b).
Proof. apply pass_derived_only. Qed.

Lemma run_op_config o b : config (run_op rules o b) = config b.
Proof.
  destruct o as [k|k to| |t|pos]; simpl.
  - apply makeTrajectory_config.
  - apply Piece_move_config.
  - apply recalculate_derived_only.
  - apply getInteraction_frame.
  - by rewrite Board_at_same.
Qed.

Lemma run_op_piece o b k pc :
  pieces b !! k = Some pc →
  ∃ pc', pieces (run_op rules o b) !! k = Some pc'
         ∧ s pc' = s pc ∧ kind pc' = kind pc
         ∧ movenum pc'
           = if is_relocation k o then size_t_incr (movenum pc) else movenum pc.
Proof.
  intros Hk. destruct o as [k0|k0 to| |t|pos]; simpl.
  - destruct (derived_only_lookup _ _ _ _ (makeTrajectory_derived_only k0 b) Hk)
      as (pc' & ? & _ & ? & ? & ?). eauto.
  - case_bool_decide as Hk0.
    + subst k0. destruct (Piece_move_spec k to b pc Hk) as (_ & f & -> & Hf).
      rewrite lookup_alter_eq, Hk. simpl.
      destruct (Hf pc) as (_ & ? & ? & ? & _). eauto.
    + rewrite Piece_move_other by done. eauto.
  - destruct (derived_only_lookup _ _ _ _ (recalculate_derived_only b) Hk)
      as (pc' & ? & _ & ? & ? & ?). eauto.
  - destruct (getInteraction_frame t b) as (_ & -> & _). eauto.
  - rewrite Board_at_same. eauto.
Qed.

Lemma run_op_in_bounds o b :
  derived_in_bounds b → derived_in_bounds (run_op rules o b).
Proof.
  intros Hb. destruct o as [k|k to| |t|pos]; simpl.
  - by apply makeTrajectory_in_bounds.
  - destruct (pieces b !! k) as [pc|] eqn:Hk.
    + destruct (Piece_move_spec k to b pc Hk) as (Hc & f & Hp & Hf).
      eapply alter_in_bounds; [exact Hc|exact Hp| |exact Hb].
      intros pc0 _. apply Hf.
    + by rewrite Piece_move_absent.
  - apply recalculate_in_bounds.
  - destruct (getInteraction_frame t b) as (Hc & Hp & _).
    intros k pc. rewrite Hc, Hp. apply Hb.
  - by rewrite Board_at_same.
Qed.

Lemma makeTrajectory_interactions k b t :
  rules_quiet rules t →
  interactions (makeTrajectory rules k b) !! t = interactions b !! t.
Proof.
  intros Hq. unfold makeTrajectory.
  destruct (pieces b !! k) as [pc|] eqn:Hk; [|done].
  destruct (makeTrajectory_begin_spec k b pc Hk) as (_ & _ & _ & Hi).
  rewrite exec_interactions, Hi; [done|].
  apply (Hq (kind pc) _ k k k).
Qed.

Lemma recalculate_interactions b t :
  rules_quiet rules t →
  interactions (recalculate rules b) !! t = interactions b !! t.
Proof.
  intros Hq. unfold recalculate. generalize (keys_in_order (pieces b)).
  intros ks. revert b. induction ks as [|k ks IH]; intros b; [done|].
  simpl. by rewrite IH, makeTrajectory_interactions.
Qed.

Lemma Piece_move_interactions k to b t :
  rules_quiet rules t →
  interactions (Piece_move rules k to b) !! t = interactions b !! t.
Proof.
  intros Hq. unfold Piece_move.
  destruct (pieces b !! k) as [pc|] eqn:Hk; [|done].
  rewrite makeTrajectory_interactions by done. simpl.
  rewrite exec_interactions; [done|]. apply Hq.
Qed.

Lemma run_op_interactions o b t i :
  rules_quiet rules t → interactions b !! t = Some i →
  interactions (run_op rules o b) !! t = Some i.
Proof.
  intros Hq Hi. destruct o as [k|k to| |t'|pos]; simpl.
  - by rewrite makeTrajectory_interactions.
  - by rewrite Piece_move_interactions.
  - by rewrite recalculate_interactions.
  - by rewrite getInteraction_keeps by eauto.
  - by rewrite Board_at_same.
Qed.


(** *** The interaction registry *)

Lemma exec1_registered k a b t :
  is_Some (interactions b !! t) →
  is_Some (interactions (exec1 rules k a b) !! t).
Proof.
  intros Hi.
  destruct a as [tile|tile|tile|tile|tile|tile|t' f]; simpl;
    [open_primitives; repeat case_match; done..|].
  pose proof (getInteraction_keeps t' t b Hi) as Hk.
  destruct (getInteraction rules t' b) as [b' i]. simpl in *.
  rewrite lookup_insert. case_decide; [done|]. by rewrite Hk.
Qed.

Lemma exec_registered k acts b t :
  is_Some (interactions b !! t) →
  is_Some (interactions (exec rules k acts b) !! t).
Proof.
  revert b. induction acts as [|a acts IH]; intros b Hi; [done|].
  unfold exec in *. simpl. by apply IH, exec1_registered.
Qed.

Lemma makeTrajectory_registered k b t :
  is_Some (interactions b !! t) →
  is_Some (interactions (makeTrajectory rules k b) !! t).
Proof.
  intros Hi. unfold makeTrajectory.
  destruct (pieces b !! k) as [pc|] eqn:Hk; [|done].
  destruct (makeTrajectory_begin_spec k b pc Hk) as (_ & _ & _ & Heq).
  apply exec_registered. by rewrite Heq.
Qed.

Lemma run_op_registered o b t :
  is_Some (interactions b !! t) →
  is_Some (interactions (run_op rules o b) !! t).
Proof.
  intros Hi. destruct o as [k|k to| |t'|pos]; simpl.
  - by apply makeTrajectory_registered.
  - unfold Piece_move. destruct (pieces b !! k) as [pc|]; [|done].
    by apply makeTrajectory_registered, exec_registered.
  - unfold recalculate. generalize (keys_in_order (pieces b)). intros ks.
    revert b Hi. induction ks as [|k ks IH]; intros b Hi; [done|].
    simpl. by apply IH, makeTrajectory_registered.
  - by rewrite getInteraction_keeps.
  - by rewrite Board_at_same.
Qed.

Lemma run_ops_registered os b t :
  is_Some (interactions b !! t) →
  is_Some (interactions (run_ops rules os b) !! t).
Proof.
  revert b. induction os as [|o os IH]; intros b Hi; [done|].
  unfold run_ops in *. simpl. by apply IH, run_op_registered.
Qed.

Lemma run_ops_interactions os b t i :
  rules_quiet rules t → interactions b !! t = Some i →
  interactions (run_ops rules os b) !! t = Some i.
Proof.
  intros Hq. revert b. induction os as [|o os IH]; intros b Hi; [done|].
  unfold run_ops in *. simpl. by apply IH, run_op_interactions.
Qed.

(** C7: the registry holds at most one instance per type, under the type's
    key. The first request for a type builds the instance from the board
    and stores it; a request for a stored type returns the stored instance
    and changes nothing, so that a second request returns what the first
    returned. Instances of other types are not touched. No call ever drops
    an instance; and when the hooks do not update the instance of this type,
    it is returned unchanged after any sequence of recomputations and
    relocations. *)
Theorem getInteraction_single_instance b t :
  let r := getInteraction rules t b in
  interactions r.1 !! t = Some r.2
  ∧ (interactions b !! t = None →
       r.2 = new_Interaction rules t b
       ∧ interactions r.1 = <[t := r.2]> (interactions b))
  ∧ (∀ i, interactions b !! t = Some i → r = (b, i))
  ∧ getInteraction rules t r.1 = r
  ∧ (∀ t', t' ≠ t → interactions r.1 !! t' = interactions b !! t')
  ∧ pieces r.1 = pieces b ∧ captures r.1 = captures b ∧ config r.1 = config b
  ∧ (∀ os, is_Some (interactions (run_ops rules os r.1) !! t))
  ∧ (rules_quiet rules t → ∀ os,
       getInteraction rules t (run_ops rules os r.1)
       = (run_ops rules os r.1, r.2)).
Proof.
  intros r.
  assert (interactions r.1 !! t = Some r.2) as Hr.
  { subst r. unfold getInteraction.
    destruct (interactions b !! t) eqn:E; simpl; [done|].
    apply lookup_insert_eq. }
  destruct (getInteraction_frame t b) as (Hc & Hp & Hcap).
  split_and!; try done.
  - subst r. unfold getInteraction. intros ->. done.
  - subst r. unfold getInteraction. by intros i ->.
  - unfold getInteraction at 1. rewrite Hr. by destruct r.
  - intros t' Hne. by apply getInteraction_other.
  - intros os. apply run_ops_registered. by rewrite Hr.
  - intros Hq os. unfold getInteraction at 1.
    by rewrite (run_ops_interactions os _ _ _ Hq Hr).
Qed.

(** *** The move count *)

Lemma run_ops_piece os b k pc :
  pieces b !! k = Some pc →
  (movenum pc + N.of_nat (relocations k os) ≤ SIZE_MAX)%N →
  ∃ pc', pieces (run_ops rules os b) !! k = Some pc'
         ∧ movenum pc' = (movenum pc + N.of_nat (relocations k os))%N.
Proof.
  revert b pc. induction os as [|o os IH]; intros b pc Hk Hmax.
  - exists pc. split; [done|]. unfold relocations. simpl. lia.
  - destruct (run_op_piece o b k pc Hk) as (pc1 & Hk1 & _ & _ & Hm1).
    unfold run_ops in *. simpl. unfold relocations in *.
    destruct (is_relocation k o) eqn:Ho.
    + rewrite filter_cons_True in * by done. simpl length in *.
      assert (movenum pc1 = (movenum pc + 1)%N) as Hm.
      { rewrite Hm1. unfold size_t_incr, SIZE_MAX in *.
        apply N.mod_small. lia. }
      destruct (IH _ _ Hk1) as (pc' & ? & ?); [lia|].
      exists pc'. split; [done|]. lia.
    + rewrite filter_cons_False in * by (by rewrite Ho).
      destruct (IH _ _ Hk1) as (pc' & ? & ?); [lia|].
      exists pc'. split; [done|]. lia.
Qed.

(** Past the largest [std::size_t] the count starts again from 0: after any
    sequence of calls it is the count before plus the relocations of the
    piece, modulo [2 ^ 64]. *)
Lemma move_count_wraps os b k pc :
  pieces b !! k = Some pc →
  (movenum pc ≤ SIZE_MAX)%N →
  ∃ pc', pieces (run_ops rules os b) !! k = Some pc'
         ∧ movenum pc'
           = ((movenum pc + N.of_nat (relocations k os)) mod 2 ^ 64)%N.
Proof.
  revert b pc. induction os as [|o os IH]; intros b pc Hk Hmax.
  - exists pc. split; [done|]. unfold relocations, SIZE_MAX in *. simpl.
    rewrite N.add_0_r, N.mod_small; [done|lia].
  - destruct (run_op_piece o b k pc Hk) as (pc1 & Hk1 & _ & _ & Hm1).
    assert ((movenum pc1 ≤ SIZE_MAX)%N) as Hmax1.
    { rewrite Hm1. destruct (is_relocation k o); [|done].
      unfold size_t_incr, SIZE_MAX.
      pose proof (N.mod_upper_bound (movenum pc + 1) (2 ^ 64)). lia. }
    destruct (IH _ _ Hk1 Hmax1) as (pc' & Hk' & Hm').
    exists pc'. split; [exact Hk'|]. rewrite Hm', Hm1.
    unfold relocations. destruct (is_relocation k o) eqn:Ho.
    + rewrite filter_cons_True by done. simpl length. unfold size_t_incr.
      rewrite N.Div0.add_mod_idemp_l. f_equal. lia.
    + by rewrite filter_cons_False by (by rewrite Ho).
Qed.


(** C8: as long as the counter does not reach the largest [std::size_t]
    (where [++] wraps around), the move count of a piece after any sequence
    of calls is its count before plus the number of relocations the piece
    went through in between: one more for each [Piece::move], and never
    less for any call. A piece starts with count 0, so that its count is the
    number of its relocations, and 1 after the first one. *)
Theorem move_count_counts_relocations b k pc os :
  pieces b !! k = Some pc →
  (movenum pc + N.of_nat (relocations k os) ≤ SIZE_MAX)%N →
  ∃ pc', pieces (run_ops rules os b) !! k = Some pc'
         ∧ movenum pc' = (movenum pc + N.of_nat (relocations k os))%N
         ∧ (movenum pc ≤ movenum pc')%N
         ∧ (∀ to, os = [OpPieceMove k to] → movenum pc' = (movenum pc + 1)%N)
         ∧ (∀ pos su K, pc = Piece_ctor pos su K →
              movenum pc' = N.of_nat (relocations k os)
              ∧ ∀ to, os = [OpPieceMove k to] → movenum pc' = 1%N).
Proof.
  intros Hk Hmax.
  destruct (run_ops_piece os b k pc Hk Hmax) as (pc' & Hk' & Hm).
  assert (∀ to, relocations k [OpPieceMove k to] = 1%nat) as Hone.
  { intros to. unfold relocations.
    rewrite filter_cons_True by (simpl; by rewrite bool_decide_eq_true).
    done. }
  exists pc'. split_and!; [done|done|lia| |].
  - intros to ->. rewrite Hm, Hone. lia.
  - intros pos su K ->. simpl in Hm. split; [lia|].
    intros to ->. rewrite Hm, Hone. lia.
Qed.


(** *** Registration and the bounds of the board *)

Lemma valid_bounds b tile :
  valid b tile = true
  ↔ 0 ≤ tile.1 < boardWidth (config b) ∧ 0 ≤ tile.2 < boardHeight (config b).
Proof.
  unfold valid, valid_in, isWithin, Origin. simpl.
  rewrite !andb_true_iff, !Z.leb_le, !Z.ltb_lt. lia.
Qed.

Lemma run_ops_in_bounds os b :
  derived_in_bounds b → derived_in_bounds (run_ops rules os b).
Proof.
  revert b. induction os as [|o os IH]; intros b Hb; [done|].
  unfold run_ops in *. simpl. by apply IH, run_op_in_bounds.
Qed.

Lemma Board_ctor_in_bounds conf fact b :
  Board_ctor rules conf fact = Ok b → derived_in_bounds b.
Proof.
  unfold Board_ctor. destruct (place _ _ _ _) as [b0|e]; [|done].
  intros [= <-]. apply recalculate_in_bounds.
Qed.

(** C6: [addTrajectory] and [addCapturing] insert the square when it is
    within the bounds of the board ([0 <= x < width], [0 <= y < height]) and
    leave the board as it is otherwise; on a board whose derived sets are
    within bounds the square is in the set afterwards exactly when it is
    within bounds. Whatever a hook calls and whatever sequence of calls
    follows, the sets stay within bounds, and they are within bounds on
    every board the constructor returns. *)
Theorem registration_within_bounds b k tile pc :
  pieces b !! k = Some pc →
  derived_in_bounds b →
  (valid b tile = true
   ↔ 0 ≤ tile.1 < boardWidth (config b) ∧ 0 ≤ tile.2 < boardHeight (config b))
  ∧ (valid b tile = true →
       pieces (addTrajectory k tile b)
       = <[k := set_traj (λ t, {[tile]} ∪ t) pc]> (pieces b)
       ∧ pieces (addCapturing k tile b)
         = <[k := set_capt (λ t, {[tile]} ∪ t) pc]> (pieces b))
  ∧ (valid b tile = false →
       addTrajectory k tile b = b ∧ addCapturing k tile b = b)
  ∧ (∀ pc', pieces (addTrajectory k tile b) !! k = Some pc' →
       (tile ∈ traj pc' ↔ valid b tile = true) ∧ capt pc' = capt pc)
  ∧ (∀ pc', pieces (addCapturing k tile b) !! k = Some pc' →
       (tile ∈ capt pc' ↔ valid b tile = true) ∧ traj pc' = traj pc)
  ∧ (∀ a, derived_in_bounds (exec1 rules k a b))
  ∧ (∀ os, derived_in_bounds (run_ops rules os b))
  ∧ (∀ conf fact b0,
       Board_ctor rules conf fact = Ok b0 → derived_in_bounds b0).
Proof.
  intros Hk Hb.
  assert (∀ t, t ∈ traj pc ∪ capt pc → valid b t = true) as Hpc
    by (intros t; apply (Hb _ _ Hk)).
  split_and!.
  - apply valid_bounds.
  - intros Hv. unfold addTrajectory, addCapturing, upd_piece. rewrite Hv.
    simpl. split; apply map_eq; intros k';
      (destruct (decide (k = k')) as [->|Hne];
         [by rewrite lookup_alter_eq, lookup_insert_eq, Hk
         |by rewrite lookup_alter_ne, lookup_insert_ne]).
  - intros Hv. unfold addTrajectory, addCapturing. by rewrite Hv.
  - intros pc'. unfold addTrajectory, upd_piece.
    destruct (valid b tile) eqn:Hv; simpl.
    + rewrite lookup_alter_eq, Hk. intros [= <-]. simpl.
      split; [|done]. split; [done|]. intros _. set_solver.
    + rewrite Hk. intros [= <-]. split; [|done].
      split; [|done]. intros Hin. rewrite <- Hv. apply Hpc. set_solver.
  - intros pc'. unfold addCapturing, upd_piece.
    destruct (valid b tile) eqn:Hv; simpl.
    + rewrite lookup_alter_eq, Hk. intros [= <-]. simpl.
      split; [|done]. split; [done|]. intros _. set_solver.
    + rewrite Hk. intros [= <-]. split; [|done].
      split; [|done]. intros Hin. rewrite <- Hv. apply Hpc. set_solver.
  - intros a. apply (exec_in_bounds k [a] b Hb).
  - intros os. by apply run_ops_in_bounds.
  - apply Board_ctor_in_bounds.
Qed.

(** *** The order of [makeTrajectory] *)

(** C4 (amended): [makeTrajectory] first empties both sets of its piece,
    then calls [addCapturable] on the piece's own square, which appends the
    entry keyed by the piece's node when the square is within the bounds of
    the board and nothing otherwise, and only then runs the hook: the hook
    reads the board so obtained and its calls are made on it. *)
Theorem makeTrajectory_sequence b k pc :
  pieces b !! k = Some pc →
  let b' := makeTrajectory_begin k b in
  pieces b' = <[k := clear_derived pc]> (pieces b)
  ∧ traj (clear_derived pc) = ∅ ∧ capt (clear_derived pc) = ∅
  ∧ captures b'
    = captures b
      ++ (if valid b (p pc) then [(pieces_find b (p pc), p pc)] else [])
  ∧ interactions b' = interactions b ∧ config b' = config b
  ∧ makeTrajectory rules k b
    = exec rules k (calcTrajectory rules (kind pc) b' k) b'.
Proof.
  intros Hk b'.
  destruct (makeTrajectory_begin_spec k b pc Hk) as (Hc & Hp & Hcap & Hi).
  split_and!; try done.
  - subst b'. rewrite Hp. apply map_eq. intros k'.
    destruct (decide (k = k')) as [->|Hne].
    + by rewrite lookup_alter_eq, lookup_insert_eq, Hk.
    + by rewrite lookup_alter_ne, lookup_insert_ne.
  - unfold makeTrajectory. by rewrite Hk.
Qed.


(** *** Running [makeTrajectory] again *)

Lemma clear_derive_clear (c : BoardConfig) acts pc :
  clear_derived (derive c acts (clear_derived pc)) = clear_derived pc.
Proof.
  destruct (derive_identity c acts (clear_derived pc)) as (Hp & Hs & Hk & Hm).
  unfold clear_derived at 1. unfold set_capt, set_traj. simpl.
  rewrite Hp, Hs, Hk, Hm. done.
Qed.

Lemma makeTrajectory_begin_again k b pc :
  pieces b !! k = Some pc →
  config (makeTrajectory_begin k (makeTrajectory rules k b))
  = config (makeTrajectory_begin k b)
  ∧ pieces (makeTrajectory_begin k (makeTrajectory rules k b))
    = pieces (makeTrajectory_begin k b).
Proof.
  intros Hk.
  set (acts := calcTrajectory rules (kind pc) (makeTrajectory_begin k b) k).
  assert (pieces (makeTrajectory rules k b) !! k
          = Some (derive (config b) acts (clear_derived pc))) as Hk1
    by (by rewrite (makeTrajectory_pieces _ _ _ Hk), lookup_alter_eq, Hk).
  destruct (makeTrajectory_begin_spec _ _ _ Hk) as (Hc & Hp & _).
  destruct (makeTrajectory_begin_spec _ _ _ Hk1) as (Hc1 & Hp1 & _).
  split; [by rewrite Hc, Hc1, makeTrajectory_config|].
  rewrite Hp, Hp1, (makeTrajectory_pieces _ _ _ Hk), alter_alter_eq.
  apply alter_ext. intros pc0 _. apply clear_derive_clear.
Qed.

(** C3 (amended): for a hook that reads the configuration and the position
    table only, running [makeTrajectory] twice in a row leaves the position
    table, and so the trajectory and capturing sets of every piece, as one
    run leaves them. The capture relation is not reset: the second run
    makes the registrations of the first once more, and an entry present
    after it was present after the first run or is one of these; when the
    hook never calls [removeCapturable], the relation after the second run
    holds the entries it held after the first together with these
    registrations, each as often as it occurs in the two, and under every
    key the entries of the first run come first, then the registrations. *)
Theorem makeTrajectory_twice b k :
  reads_table_only rules →
  let b1 := makeTrajectory rules k b in
  let b2 := makeTrajectory rules k b1 in
  pieces b2 = pieces b1 ∧ config b2 = config b1
  ∧ makeTrajectory_registers rules k b1 = makeTrajectory_registers rules k b
  ∧ (∀ e, e ∈ captures b2 →
       e ∈ captures b1 ∨ e ∈ makeTrajectory_registers rules k b)
  ∧ (rules_keep_entries rules →
       captures b2 ≡ₚ captures b1 ++ makeTrajectory_registers rules k b
       ∧ ∀ it, equal_range it (captures b2)
               = equal_range it (captures b1)
                 ++ equal_range it (makeTrajectory_registers rules k b)).
Proof.
  intros Hread b1 b2.
  destruct (pieces b !! k) as [pc|] eqn:Hk; cycle 1.
  { subst b2 b1. rewrite !(makeTrajectory_absent k b) by done.
    split_and!; first [done|by left|idtac].
    unfold makeTrajectory_registers. rewrite Hk, app_nil_r.
    split; [done|]. intros it. by rewrite app_nil_r. }
  set (acts := calcTrajectory rules (kind pc) (makeTrajectory_begin k b) k).
  set (pc1 := derive (config b) acts (clear_derived pc)).
  assert (pieces b1 !! k = Some pc1) as Hk1
    by (subst b1; by rewrite (makeTrajectory_pieces _ _ _ Hk), lookup_alter_eq, Hk).
  assert (kind pc1 = kind pc ∧ p pc1 = p pc) as [Hkind Hpos].
  { subst pc1. destruct (derive_identity (config b) acts (clear_derived pc))
      as (-> & _ & -> & _). done. }
  destruct (makeTrajectory_begin_again k b pc Hk) as (Hc & Hp).
  assert (calcTrajectory rules (kind pc1) (makeTrajectory_begin k b1) k = acts)
    as Hacts by (rewrite Hkind; by apply Hread).
  assert (config b1 = config b) as Hc1 by apply makeTrajectory_config.
  assert (pieces b2 = pieces b1) as Hsame.
  { subst b2. rewrite (makeTrajectory_pieces _ _ _ Hk1), Hacts, Hc1.
    subst b1. rewrite (makeTrajectory_pieces _ _ _ Hk), alter_alter_eq.
    apply alter_ext. intros pc0 _. simpl. fold acts.
    by rewrite clear_derive_clear. }
  assert (makeTrajectory_registers rules k b1
          = makeTrajectory_registers rules k b) as Hreg.
  { unfold makeTrajectory_registers. rewrite Hk1, Hk, Hacts, Hpos.
    fold acts. rewrite Hc1.
    rewrite (valid_config b1 b) by done.
    rewrite (pieces_find_dom b1 b); [done|].
    apply derived_only_dom, makeTrajectory_derived_only. }
  split_and!; [done|apply makeTrajectory_config|done| |].
  - intros e He. apply makeTrajectory_captures_sub in He.
    by rewrite Hreg in He.
  - intros Hkeep. subst b2.
    rewrite makeTrajectory_captures_exact, Hreg by done.
    split; [done|]. intros it. apply filter_app.
Qed.

(** *** The recalculation pass *)

(** C2 (amended): after a pass of [makeTrajectory] over every piece, an
    entry of the capture relation was stored before the pass or was
    inserted by an [addCapturable] call of the pass. The pass discards
    nothing by itself: when no hook calls [removeCapturable], the relation
    after the pass holds the entries stored before together with the
    entries inserted, each as often as it occurs in the two, and under
    every key the entries stored before come first, then those inserted.
    On a board where every piece is stored under its own square, the
    entries inserted during the pass are keyed by pieces of the position
    table and bear squares of the board; so when the pass starts on such a
    board from an empty relation, as in the constructor, all entries come
    from the pass and are keyed by existing pieces. *)
Theorem recalculate_entries b :
  let b' := recalculate rules b in
  (∀ e, e ∈ captures b' → e ∈ captures b ∨ e ∈ recalculate_registers rules b)
  ∧ (rules_keep_entries rules →
       captures b' ≡ₚ captures b ++ recalculate_registers rules b
       ∧ ∀ it, equal_range it (captures b')
               = equal_range it (captures b)
                 ++ equal_range it (recalculate_registers rules b))
  ∧ (occupancy b →
       (∀ e, e ∈ recalculate_registers rules b →
          ∃ k tile, e = (It k, tile) ∧ is_Some (pieces b' !! k)
                    ∧ valid b' tile = true)
       ∧ (captures b = [] →
            ∀ e, e ∈ captures b' →
              e ∈ recalculate_registers rules b
              ∧ ∃ k tile, e = (It k, tile) ∧ is_Some (pieces b' !! k))).
Proof.
  intros b'.
  pose proof (recalculate_derived_only b) as Hd.
  split_and!; [apply pass_captures_sub| |].
  { intros Hkeep. subst b'. unfold recalculate.
    rewrite (pass_captures_exact _ _ Hkeep).
    split; [done|]. intros it. apply filter_app. }
  intros Hocc.
  assert (∀ e, e ∈ recalculate_registers rules b →
            ∃ k tile, e = (It k, tile) ∧ is_Some (pieces b' !! k)
                      ∧ valid b' tile = true) as Hshape.
  { intros e He. apply pass_registers_shape in He as (k & tile & -> & Hk & Hv);
      [|done].
    exists k, tile. split_and!; [done| |].
    - apply elem_of_dom. subst b'. rewrite (derived_only_dom _ _ Hd).
      by apply elem_of_dom.
    - rewrite <- Hv. apply valid_config. apply Hd. }
  split; [done|].
  intros Hnil e He. apply pass_captures_sub in He as [He|He].
  - rewrite Hnil in He. by apply elem_of_nil in He.
  - split; [done|]. apply Hshape in He as (k & tile & ? & ? & _). eauto.
Qed.


(** *** Construction *)

Lemma bind_interactions_frame ts b :
  config (bind_interactions rules ts b) = config b
  ∧ pieces (bind_interactions rules ts b) = pieces b
  ∧ captures (bind_interactions rules ts b) = captures b.
Proof.
  unfold bind_interactions. revert b.
  induction ts as [|t ts IH]; intros b; simpl; [done|].
  destruct (IH (getInteraction rules t b).1) as (-> & -> & ->).
  apply getInteraction_frame.
Qed.

Lemma getInteraction_bound t b :
  is_Some (interactions (getInteraction rules t b).1 !! t).
Proof.
  unfold getInteraction. destruct (interactions b !! t) eqn:E; simpl.
  - by rewrite E.
  - rewrite lookup_insert_eq. eauto.
Qed.

Lemma bind_interactions_keeps ts b t :
  is_Some (interactions b !! t) →
  is_Some (interactions (bind_interactions rules ts b) !! t).
Proof.
  unfold bind_interactions. revert b.
  induction ts as [|t0 ts IH]; intros b Hb; simpl; [done|].
  apply IH. by rewrite getInteraction_keeps.
Qed.

Lemma bind_interactions_bound ts b t :
  t ∈ ts → is_Some (interactions (bind_interactions rules ts b) !! t).
Proof.
  revert b. induction ts as [|t0 ts IH]; intros b Hin.
  - by apply elem_of_nil in Hin.
  - destruct (decide (t = t0)) as [->|Hne].
    + apply (bind_interactions_keeps ts (getInteraction rules t0 b).1).
      apply getInteraction_bound.
    + apply elem_of_cons in Hin as [?|Hin]; [done|].
      apply (IH (getInteraction rules t0 b).1 Hin).
Qed.

Lemma place_interactions (fact : Factory_t IState) slots b b' t :
  place rules fact slots b = Ok b' →
  is_Some (interactions b !! t) → is_Some (interactions b' !! t).
Proof.
  revert b. induction slots as [|slot slots IH]; intros b; simpl.
  - by intros [= ->].
  - destruct (fact !! slot.2.1) as [make|]; [|done].
    destruct (make b slot.1 slot.2.2) as [[pc ts]|e]; [|done].
    intros Hok Hb. apply (IH _ Hok). simpl.
    by apply bind_interactions_keeps.
Qed.

Lemma place_frame (fact : Factory_t IState) slots b b' :
  place rules fact slots b = Ok b' →
  config b' = config b ∧ captures b' = captures b.
Proof.
  revert b. induction slots as [|slot slots IH]; intros b; simpl.
  - by intros [= ->].
  - destruct (fact !! slot.2.1) as [make|]; [|done].
    destruct (make b slot.1 slot.2.2) as [[pc ts]|e]; [|done].
    intros (-> & ->)%IH. simpl.
    by destruct (bind_interactions_frame ts b) as (-> & _ & ->).
Qed.

Lemma place_Ok (fact : Factory_t IState) slots b :
  (∀ slot, slot ∈ slots → is_Some (fact !! slot.2.1)) →
  factory_returns fact slots →
  ∃ b', place rules fact slots b = Ok b'.
Proof.
  revert b. induction slots as [|slot slots IH]; intros b Hall Hret; simpl;
    [eauto|].
  destruct (Hall slot) as [make Hmake]; [by left|]. rewrite Hmake.
  destruct (Hret slot make b) as (pc & ts & ->); [by left|done|].
  apply IH.
  - intros slot' Hin. apply Hall. by right.
  - intros slot' make' b0 Hin. apply Hret. by right.
Qed.

Lemma place_fails (fact : Factory_t IState) slots b :
  (∃ slot, slot ∈ slots ∧ fact !! slot.2.1 = None) →
  ∃ e, place rules fact slots b = Throw e.
Proof.
  revert b. induction slots as [|slot slots IH]; intros b (bad & Hin & Hbad).
  - by apply elem_of_nil in Hin.
  - simpl. destruct (fact !! slot.2.1) as [make|] eqn:E; [|eauto].
    destruct (make b slot.1 slot.2.2) as [[pc ts]|e]; [|eauto].
    apply IH. exists bad. split; [|done].
    apply elem_of_cons in Hin as [->|Hin]; [congruence|done].
Qed.

Lemma place_Throw (fact : Factory_t IState) slots b :
  (∃ slot, slot ∈ slots ∧ fact !! slot.2.1 = None) →
  factory_returns fact slots →
  place rules fact slots b = Throw out_of_range.
Proof.
  revert b. induction slots as [|slot slots IH];
    intros b (bad & Hin & Hbad) Hret.
  - by apply elem_of_nil in Hin.
  - simpl. destruct (fact !! slot.2.1) as [make|] eqn:E; [|done].
    destruct (Hret slot make b) as (pc & ts & ->); [by left|done|].
    apply IH.
    + exists bad. split; [|done].
      apply elem_of_cons in Hin as [->|Hin]; [congruence|done].
    + intros slot' make' b0 Hin'. apply Hret. by right.
Qed.

Lemma place_Ok_inv (fact : Factory_t IState) slots b b' :
  place rules fact slots b = Ok b' →
  ∀ slot, slot ∈ slots → is_Some (fact !! slot.2.1).
Proof.
  intros Hok slot Hin.
  destruct (fact !! slot.2.1) as [make|] eqn:E; [eauto|].
  destruct (place_fails fact slots b) as [e He]; [eauto|]. congruence.
Qed.

Lemma place_dom (fact : Factory_t IState) slots b b' :
  place rules fact slots b = Ok b' →
  dom (pieces b') = dom (pieces b) ∪ list_to_set slots.*1.
Proof.
  revert b. induction slots as [|slot slots IH]; intros b; simpl.
  - intros [= ->]. set_solver.
  - destruct (fact !! slot.2.1) as [make|]; [|done].
    destruct (make b slot.1 slot.2.2) as [[pc ts]|e]; [|done].
    intros ->%IH. simpl. rewrite dom_insert_L.
    destruct (bind_interactions_frame ts b) as (_ & -> & _). set_solver.
Qed.

Lemma place_untouched (fact : Factory_t IState) slots b b' k :
  place rules fact slots b = Ok b' → k ∉ slots.*1 →
  pieces b' !! k = pieces b !! k.
Proof.
  revert b. induction slots as [|slot slots IH]; intros b; simpl.
  - by intros [= ->].
  - destruct (fact !! slot.2.1) as [make|]; [|done].
    destruct (make b slot.1 slot.2.2) as [[pc ts]|e]; [|done].
    intros Hok [Hne Hnot]%not_elem_of_cons.
    rewrite (IH _ Hok Hnot). simpl. rewrite lookup_insert_ne by done.
    by destruct (bind_interactions_frame ts b) as (_ & -> & _).
Qed.

Lemma place_lookup (fact : Factory_t IState) slots b b' :
  place rules fact slots b = Ok b' → NoDup slots.*1 →
  ∀ slot, slot ∈ slots →
    ∃ make b0 pc ts,
      fact !! slot.2.1 = Some make
      ∧ make b0 slot.1 slot.2.2 = Ok (pc, ts)
      ∧ pieces b' !! slot.1 = Some pc
      ∧ ∀ t, t ∈ ts → is_Some (interactions b' !! t).
Proof.
  revert b. induction slots as [|slot0 slots IH]; intros b; simpl.
  - intros _ _ slot Hin. by apply elem_of_nil in Hin.
  - destruct (fact !! slot0.2.1) as [make|] eqn:E; [|done].
    destruct (make b slot0.1 slot0.2.2) as [[pc ts]|e] eqn:Emake; [|done].
    intros Hok [Hnot Hnd]%NoDup_cons slot [->|Hin]%elem_of_cons.
    + exists make, b, pc, ts. split_and!; [done..| |].
      * rewrite (place_untouched _ _ _ _ _ Hok Hnot). simpl.
        apply lookup_insert_eq.
      * intros t Ht. eapply place_interactions; [exact Hok|]. simpl.
        by apply bind_interactions_bound.
    + by apply (IH _ Hok Hnd).
Qed.

Lemma pass_untouched ks b k :
  k ∉ ks →
  pieces (foldl (λ b k, makeTrajectory rules k b) b ks) !! k = pieces b !! k.
Proof.
  revert b. induction ks as [|k0 ks IH]; intros b Hnot; simpl; [done|].
  apply not_elem_of_cons in Hnot as [Hne Hnot].
  rewrite IH by done. by apply makeTrajectory_other.
Qed.

(** The piece under [k] after a pass that visits it once: its sets were
    cleared and filled by its hook on the board the pass had reached. *)
Lemma pass_visit ks1 k ks2 b pc0 :
  NoDup (ks1 ++ k :: ks2) → pieces b !! k = Some pc0 →
  pieces (foldl (λ b k, makeTrajectory rules k b) b (ks1 ++ k :: ks2)) !! k
  = Some (derive (config b)
            (calcTrajectory rules (kind pc0)
               (makeTrajectory_begin k
                  (foldl (λ b k, makeTrajectory rules k b) b ks1)) k)
            (clear_derived pc0)).
Proof.
  intros Hnd Hk. rewrite foldl_app. simpl.
  apply NoDup_app in Hnd as (_ & Hdisj & Hnd2).
  apply NoDup_cons in Hnd2 as [Hk2 _].
  rewrite pass_untouched by done.
  set (b1 := foldl (λ b k, makeTrajectory rules k b) b ks1).
  assert (pieces b1 !! k = Some pc0) as Hk1.
  { subst b1. rewrite pass_untouched; [done|].
    intros Hin. apply (Hdisj k Hin). by left. }
  rewrite (makeTrajectory_pieces _ _ _ Hk1), lookup_alter_eq, Hk1. simpl.
  assert (config b1 = config b) as ->
    by apply (proj1 (pass_derived_only ks1 b)).
  done.
Qed.


(** *** [Board::move], as the spec describes it *)

(** C1: [Board::move] returns true only if the source square is occupied
    and the target is in the trajectory of the piece standing there; when
    it returns false the board it leaves is the board it was given:
    position table, the sets of every piece, capture relation and
    interaction registry. *)
Theorem Board_move_atomic b source target :
  let r := Board_move rules source target b in
  (r.2 = true →
     ∃ pc, pieces b !! source = Some pc ∧ target ∈ traj pc)
  ∧ (r.2 = false →
       r.1 = b ∧ pieces r.1 = pieces b ∧ captures r.1 = captures b
       ∧ interactions r.1 = interactions b ∧ config r.1 = config b).
Proof.
  intros r. subst r. unfold Board_move.
  destruct (pieces b !! source) as [pc|] eqn:Hs; [|by split].
  destruct (decide (target ∈ traj pc)); simpl; split; try done.
  intros _. eauto.
Qed.


End Properties.

(** ** The statements on concrete boards *)

Local Open Scope string_scope.

Lemma fresh_board_in_bounds (IState : Type) (b : Board IState) :
  (∀ k pc, pieces b !! k = Some pc → traj pc = ∅ ∧ capt pc = ∅) →
  derived_in_bounds b.
Proof.
  intros Hfresh k pc Hk tile. destruct (Hfresh _ _ Hk) as [-> ->]. set_solver.
Qed.

Lemma slider_reads_table_only : reads_table_only slider_rules.
Proof. intros K b1 b2 k _ Hp. simpl. by rewrite Hp. Qed.

Lemma slider_quiet_EnPassant : rules_quiet slider_rules "EnPassant".
Proof.
  intros K b k from to. unfold quiet. simpl. split_and!.
  - destruct (pieces b !! k); by repeat constructor.
  - by repeat constructor.
  - constructor.
Qed.

Lemma board_rook_corner_occupancy (IState : Type) :
  occupancy (board_rook_corner IState).
Proof.
  intros k pc Hk. simpl in Hk.
  by apply lookup_singleton_Some in Hk as [<- <-].
Qed.

(** [Board::at] on the board with one rook. *)
Example Board_at_rook_corner :
  (Board_at (0, 0) (board_rook_corner unit)).2
  = Some (Piece_ctor (0, 0) "White" "Rook")
  ∧ (Board_at (1, 1) (board_rook_corner unit)).2 = None
  ∧ (Board_at (8, 8) (board_rook_corner unit)).2 = None.
Proof. by vm_compute. Qed.

(** A piece that the layout put next to the board is found on its square,
    out of bounds as it is. *)
Example Board_at_off_board_piece :
  valid (board_off_board unit) (8, 0) = false
  ∧ (Board_at (8, 0) (board_off_board unit)).2
    = Some (Piece_ctor (8, 0) "White" "Rook").
Proof. by vm_compute. Qed.

(** Of the two equal entries of the rook only the first goes. *)
Example removeCapturable_duplicates :
  captures (removeCapturable (0, 0) (1, 1) (board_duplicates unit))
  = [(It (3, 4), (1, 1)); (It (0, 0), (2, 2)); (It (0, 0), (1, 1))].
Proof. by vm_compute. Qed.

Lemma removeCapturable_erases_first_witness :
  pieces (board_duplicates unit) !! (0, 0)
  = Some (Piece_ctor (0, 0) "White" "Rook")
  ∧ Nat.le (length (captures (board_duplicates unit)))
      (S (length (captures (removeCapturable (0, 0) (1, 1)
                              (board_duplicates unit)))))
  ∧ pieces (removeCapturable (0, 0) (1, 1) (board_duplicates unit))
    = pieces (board_duplicates unit).
Proof.
  split; [reflexivity|].
  pose proof (removeCapturable_erases_first unit (board_duplicates unit)
                (0, 0) (1, 1) (Piece_ctor (0, 0) "White" "Rook") eq_refl) as H.
  cbv zeta in H. destruct H as (_ & _ & _ & Hlen & Hp & _).
  split; [exact Hlen|exact Hp].
Defined.

(** The registry: a second request returns what the first returned, also
    after a relocation that updates another interaction. *)
Lemma getInteraction_single_instance_witness :
  rules_quiet slider_rules "EnPassant"
  ∧ let r := getInteraction slider_rules "EnPassant" (board_rook_rekeyed nat) in
    getInteraction slider_rules "EnPassant" r.1 = r
    ∧ getInteraction slider_rules "EnPassant"
        (run_ops slider_rules [OpPieceMove (0, 7) (0, 7)] r.1)
      = (run_ops slider_rules [OpPieceMove (0, 7) (0, 7)] r.1, r.2).
Proof.
  split; [exact slider_quiet_EnPassant|].
  pose proof (getInteraction_single_instance nat slider_rules
                (board_rook_rekeyed nat) "EnPassant") as H.
  cbv zeta in H. cbv zeta.
  destruct H as (_ & _ & _ & Hagain & _ & _ & _ & _ & _ & Hquiet).
  split; [exact Hagain|].
  exact (Hquiet slider_quiet_EnPassant [OpPieceMove (0, 7) (0, 7)]).
Defined.

(** The instance of "Castling" is built once, at the first relocation that
    asks for it, and keeps counting over the next one. *)
Example interaction_state_persists :
  interactions (board_rook_rekeyed nat) !! "Castling" = None
  ∧ interactions (run_ops slider_rules first_move (board_rook_rekeyed nat))
      !! "Castling" = Some 1%nat
  ∧ interactions
      (run_ops slider_rules (first_move ++ [OpRecalculate] ++ first_move)
         (board_rook_rekeyed nat)) !! "Castling" = Some 2%nat.
Proof. split_and!; vm_compute; reflexivity. Qed.

(** The first relocation of a fresh rook. *)
Lemma move_count_counts_relocations_witness :
  pieces (board_rook_rekeyed nat) !! (0, 7) = Some corner_rook
  ∧ (movenum corner_rook + N.of_nat (relocations (0, 7)%Z first_move)
     ≤ SIZE_MAX)%N
  ∧ ∃ pc',
      pieces (run_ops slider_rules first_move (board_rook_rekeyed nat))
        !! (0, 7) = Some pc'
      ∧ movenum pc' = 1%N.
Proof.
  assert ((movenum corner_rook + N.of_nat (relocations (0, 7)%Z first_move)
           ≤ SIZE_MAX)%N) as Hmax by (by vm_compute).
  split; [reflexivity|]. split; [exact Hmax|].
  destruct (move_count_counts_relocations nat slider_rules
              (board_rook_rekeyed nat) (0, 7) corner_rook first_move
              eq_refl Hmax)
    as (pc' & Hk & _ & _ & _ & Hfresh).
  exists pc'. split; [exact Hk|].
  exact (proj2 (Hfresh (0, 0) "White" "Rook" eq_refl) (0, 7) eq_refl).
Defined.

(** Of the 32 candidates of the sliding rook in the corner, the 14 on the
    board make its trajectory. *)
Example built_sliding_rook_trajectory :
  (traj <$> pieces built_sliding_rook !! (0, 0))
  = Some (list_to_set
            [(1, 0); (2, 0); (3, 0); (4, 0); (5, 0); (6, 0); (7, 0);
             (0, 1); (0, 2); (0, 3); (0, 4); (0, 5); (0, 6); (0, 7)])
  ∧ (capt <$> pieces built_sliding_rook !! (0, 0)) = Some ∅
  ∧ captures built_sliding_rook = [(It (0, 0), (0, 0))].
Proof. split_and!; vm_compute; reflexivity. Qed.

(** A square next to the board is dropped, one on the board is kept. *)
Example addTrajectory_on_and_off_board :
  addTrajectory (0, 0) (0, 8) (board_rook_corner unit) = board_rook_corner unit
  ∧ addCapturing (0, 0) (-1, 0) (board_rook_corner unit) = board_rook_corner unit
  ∧ (traj <$> pieces (addTrajectory (0, 0) (0, 7) (board_rook_corner unit))
                !! (0, 0)) = Some {[ (0, 7) ]}.
Proof. by vm_compute. Qed.

Lemma registration_within_bounds_witness :
  pieces (board_rook_corner nat) !! (0, 0) = Some corner_rook
  ∧ derived_in_bounds (board_rook_corner nat)
  ∧ addTrajectory (0, 0) (0, 8) (board_rook_corner nat) = board_rook_corner nat
  ∧ derived_in_bounds
      (run_ops slider_rules [OpPieceMove (0, 0) (0, 7); OpRecalculate]
         (board_rook_corner nat)).
Proof.
  assert (derived_in_bounds (board_rook_corner nat)) as Hb.
  { apply fresh_board_in_bounds. intros k pc Hk. simpl in Hk.
    by apply lookup_singleton_Some in Hk as [_ <-]. }
  split; [reflexivity|]. split; [exact Hb|].
  destruct (registration_within_bounds nat slider_rules (board_rook_corner nat)
              (0, 0) (0, 8) corner_rook eq_refl Hb)
    as (_ & _ & Hoff & _ & _ & _ & Hops & _).
  split; [exact (proj1 (Hoff eq_refl))|apply Hops].
Defined.

(** The rook of the corner: the hook finds both sets empty and the rook's
    own square registered. *)
Lemma makeTrajectory_sequence_witness :
  pieces (board_rook_corner nat) !! (0, 0) = Some corner_rook
  ∧ captures (makeTrajectory_begin (0, 0) (board_rook_corner nat))
    = [(It (0, 0), (0, 0))]
  ∧ makeTrajectory slider_rules (0, 0) (board_rook_corner nat)
    = exec slider_rules (0, 0)
        (calcTrajectory slider_rules "Rook"
           (makeTrajectory_begin (0, 0) (board_rook_corner nat)) (0, 0))
        (makeTrajectory_begin (0, 0) (board_rook_corner nat)).
Proof.
  split; [reflexivity|].
  pose proof (makeTrajectory_sequence nat slider_rules (board_rook_corner nat)
                (0, 0) corner_rook eq_refl) as H.
  cbv zeta in H. destruct H as (_ & _ & _ & Hcap & _ & _ & Hrun).
  split; [rewrite Hcap; reflexivity|exact Hrun].
Defined.

(** C4, as stated, fails for a piece that stands off the board: the call
    [addCapturable(pos)] is made, and registers nothing. *)
Lemma makeTrajectory_off_board_registers_nothing :
  pieces (board_off_board unit) !! (8, 0) = Some (Piece_ctor (8, 0) "White" "Rook")
  ∧ valid (board_off_board unit) (8, 0) = false
  ∧ captures (makeTrajectory_begin (8, 0) (board_off_board unit)) = []
  ∧ captures (makeTrajectory idle_rules (8, 0) (board_off_board unit)) = []
  ∧ ¬ (∀ (b : Board unit) k pc,
         pieces b !! k = Some pc →
         (pieces_find b (p pc), p pc) ∈ captures (makeTrajectory_begin k b)).
Proof.
  split_and!; try reflexivity.
  intros Hclaim.
  specialize (Hclaim (board_off_board unit) (8, 0) _ eq_refl).
  vm_compute in Hclaim. by apply elem_of_nil in Hclaim.
Qed.

(** The sliding rook of the corner: a second run changes no set. *)
Lemma makeTrajectory_twice_witness :
  reads_table_only slider_rules
  ∧ pieces (makeTrajectory slider_rules (0, 0)
              (makeTrajectory slider_rules (0, 0) (board_rook_corner nat)))
    = pieces (makeTrajectory slider_rules (0, 0) (board_rook_corner nat)).
Proof.
  split; [exact slider_reads_table_only|].
  pose proof (makeTrajectory_twice nat slider_rules (board_rook_corner nat)
                (0, 0) slider_reads_table_only) as H.
  cbv zeta in H. exact (proj1 H).
Defined.

(** C3, as stated, fails on the capture relation: the second run registers
    the rook's own square once more. *)
Lemma makeTrajectory_twice_grows :
  let once := makeTrajectory idle_rules (0, 0) (board_rook_corner unit) in
  let twice := makeTrajectory idle_rules (0, 0) once in
  captures once = [(It (0, 0), (0, 0))]
  ∧ captures twice = [(It (0, 0), (0, 0)); (It (0, 0), (0, 0))]
  ∧ pieces twice = pieces once
  ∧ twice ≠ once.
Proof.
  split_and!; try reflexivity.
  intros Heq. apply (f_equal (λ b, length (captures b))) in Heq.
  vm_compute in Heq. discriminate.
Qed.

(** [reads_table_only] cannot be dropped: a hook that reads the capture
    relation finds it longer on the second run. *)
Example makeTrajectory_twice_reading_captures :
  let once := makeTrajectory counting_rules (0, 0) (board_rook_corner unit) in
  let twice := makeTrajectory counting_rules (0, 0) once in
  (traj <$> pieces once !! (0, 0)) = Some {[ (1, 0) ]}
  ∧ (traj <$> pieces twice !! (0, 0)) = Some {[ (2, 0) ]}.
Proof. split; vm_compute; reflexivity. Qed.

(** C2 on the board the constructor builds: every entry comes from the
    pass and is keyed by a piece of the table. *)
Lemma recalculate_entries_witness :
  occupancy (board_rook_corner nat)
  ∧ ∀ e, e ∈ captures (recalculate slider_rules (board_rook_corner nat)) →
         e ∈ recalculate_registers slider_rules (board_rook_corner nat)
         ∧ ∃ k tile,
             e = (It k, tile)
             ∧ is_Some (pieces (recalculate slider_rules (board_rook_corner nat))
                          !! k).
Proof.
  split; [apply board_rook_corner_occupancy|].
  pose proof (recalculate_entries nat slider_rules (board_rook_corner nat))
    as H.
  cbv zeta in H. destruct H as (_ & _ & Hocc).
  destruct (Hocc (board_rook_corner_occupancy nat)) as [_ Hempty].
  exact (Hempty eq_refl).
Defined.

(** The board the constructor returns for two rooks, and a second pass over
    it: the entries of the first pass stay beside those of the second. *)
Example recalculate_after_construction :
  Board_ctor idle_rules conf_two_rooks (rook_factory unit)
  = Ok built_two_rooks
  ∧ captures built_two_rooks
    = [(It (0, 0), (0, 0)); (It (3, 4), (3, 4))]
  ∧ recalculate_registers idle_rules built_two_rooks
    = [(It (0, 0), (0, 0)); (It (3, 4), (3, 4))]
  ∧ captures (recalculate idle_rules built_two_rooks)
    ≡ₚ [(It (0, 0), (0, 0)); (It (0, 0), (0, 0));
        (It (3, 4), (3, 4)); (It (3, 4), (3, 4))].
Proof.
  split_and!; [vm_compute; reflexivity..|].
  replace (captures (recalculate idle_rules built_two_rooks))
    with [(It (0, 0), (0, 0)); (It (3, 4), (3, 4));
          (It (0, 0), (0, 0)); (It (3, 4), (3, 4))]
    by (vm_compute; reflexivity).
  apply perm_skip, perm_swap.
Qed.

(** C2, as stated, fails when the relation holds an entry before the pass.
    The entry of a piece that is gone from (5, 5) is still there after the
    pass, which has not inserted it; and after a second pass over the board
    the constructor returns for two rooks, the relation holds more entries
    than the pass has inserted. *)
Lemma recalculate_keeps_earlier_entries :
  let b := board_stale_entry unit in
  let b' := recalculate idle_rules b in
  let b2 := built_two_rooks in
  occupancy b
  ∧ captures b' ≡ₚ [(It (0, 0), (0, 0)); (It (5, 5), (5, 5))]
  ∧ recalculate_registers idle_rules b = [(It (0, 0), (0, 0))]
  ∧ pieces b' !! (5, 5) = None
  ∧ ¬ (∀ e, e ∈ captures b' →
         e ∈ recalculate_registers idle_rules b
         ∧ ∃ k tile, e = (It k, tile) ∧ is_Some (pieces b' !! k))
  ∧ Board_ctor idle_rules conf_two_rooks (rook_factory unit) = Ok b2
  ∧ ¬ (captures (recalculate idle_rules b2)
       ⊆+ recalculate_registers idle_rules b2).
Proof.
  split_and!; try reflexivity.
  - intros k pc Hk. simpl in Hk.
    by apply lookup_singleton_Some in Hk as [<- <-].
  - apply perm_swap.
  - intros Hclaim.
    destruct (Hclaim (It (5, 5), (5, 5))) as (_ & k & tile & Heq & Hsome).
    { vm_compute. by left. }
    injection Heq as <- <-. vm_compute in Hsome. by destruct Hsome.
  - intros Hsub%submseteq_length. vm_compute in Hsub. lia.
Qed.

Lemma rook_factory_returns (IState : Type) slots :
  factory_returns (rook_factory IState) slots.
Proof.
  intros slot make b _ Hmake. unfold rook_factory in Hmake.
  apply lookup_singleton_Some in Hmake as [_ <-]. eauto.
Qed.

(** What propagates is what was thrown first. *)
Example Board_ctor_factory_throws :
  Board_ctor slider_rules conf_king_first flawed_factory
  = Throw (thrown "bad_alloc").
Proof. reflexivity. Qed.


(** [Board::move] on the board with the sliding rook of the corner: up the
    column it succeeds, on a diagonal or from an empty square it fails. *)
Example Board_move_rook_corner :
  Board_ctor slider_rules conf_rook_corner (rook_factory nat)
  = Ok built_sliding_rook
  ∧ (Board_move slider_rules (0, 0) (0, 7) built_sliding_rook).2 = true
  ∧ pieces (Board_move slider_rules (0, 0) (0, 7) built_sliding_rook).1
      !! (0, 0) = None
  ∧ (movenum <$> pieces (Board_move slider_rules (0, 0) (0, 7)
                           built_sliding_rook).1 !! (0, 7)) = Some 1%N
  ∧ (Board_move slider_rules (0, 0) (1, 1) built_sliding_rook).2 = false
  ∧ (Board_move slider_rules (4, 4) (4, 5) built_sliding_rook).2 = false.
Proof. split_and!; vm_compute; reflexivity. Qed.

Local Close Scope string_scope.

(** * More of Board.hpp

    The removal primitives, what a hook's calls add up to, the capture
    relation's bounds, and what no call of the header ever changes. *)

(** The primitives of [Piece], opened up to the writes they make. *)
Ltac open_calls :=
  unfold addTrajectory, removeTrajectory, addCapturing, removeCapturing,
    addCapturable, removeCapturable, valid, upd_piece.

Section Calls.
Variable IState : Type.

(** The squares a hook proposes with [addTrajectory] and [addCapturing], and
    whether it ever takes one back. *)
Definition proposed_trajectory (acts : list (Action IState)) : list Position_t :=
  omap (λ a, match a with AddTrajectory tile => Some tile | _ => None end) acts.

Definition proposed_capturing (acts : list (Action IState)) : list Position_t :=
  omap (λ a, match a with AddCapturing tile => Some tile | _ => None end) acts.

Definition never_removes (acts : list (Action IState)) : Prop :=
  Forall
    (λ a, match a with
          | RemoveTrajectory _ | RemoveCapturing _ => False
          | _ => True
          end)
    acts.

(** Every entry of the capture relation bears a square of the board. *)
Definition captures_in_bounds (b : Board IState) : Prop :=
  ∀ e, e ∈ captures b → valid b e.2 = true.

End Calls.

Arguments proposed_trajectory {IState} _.
Arguments proposed_capturing {IState} _.
Arguments never_removes {IState} _.
Arguments captures_in_bounds {IState} _.

Section Removal.
Variable IState : Type.
Variable rules : Rules IState.

Implicit Types (b : Board IState) (k tile pos : Position_t) (pc : Piece).
Implicit Types (a : Action IState) (acts : list (Action IState)).
Implicit Types (c : list (Pieces_t_iterator * Position_t)).

Lemma set_traj_same (f : gset Position_t → gset Position_t) pc :
  f (traj pc) = traj pc → set_traj f pc = pc.
Proof. destruct pc. unfold set_traj. simpl. by intros ->. Qed.

Lemma set_capt_same (f : gset Position_t → gset Position_t) pc :
  f (capt pc) = capt pc → set_capt f pc = pc.
Proof. destruct pc. unfold set_capt. simpl. by intros ->. Qed.

Lemma upd_piece_same k (f : Piece → Piece) b :
  (∀ pc, pieces b !! k = Some pc → f pc = pc) → upd_piece k f b = b.
Proof.
  intros Hf. destruct b as [cf ps cs ints]. unfold upd_piece, set_pieces.
  simpl in *. f_equal. by apply alter_id.
Qed.

Lemma upd_piece_upd_piece k (f g : Piece → Piece) b :
  upd_piece k f (upd_piece k g b) = upd_piece k (f ∘ g) b.
Proof. unfold upd_piece, set_pieces. simpl. by rewrite alter_alter_eq. Qed.

(** X1: erasing a square that is in neither set changes nothing, and
    adding a square that was not there and removing it again gives the
    board back, whether the square is on the board (it is inserted, then
    erased) or off it (it is never inserted). *)
Theorem remove_undoes_add b k tile pc :
  pieces b !! k = Some pc →
  tile ∉ traj pc → tile ∉ capt pc →
  removeTrajectory k tile b = b
  ∧ removeCapturing k tile b = b
  ∧ removeTrajectory k tile (addTrajectory k tile b) = b
  ∧ removeCapturing k tile (addCapturing k tile b) = b.
Proof.
  intros Hk Ht Hc.
  assert (removeTrajectory k tile b = b) as Hrt.
  { apply upd_piece_same. intros pc' Hk'. assert (pc' = pc) as -> by congruence.
    apply set_traj_same. set_solver. }
  assert (removeCapturing k tile b = b) as Hrc.
  { apply upd_piece_same. intros pc' Hk'. assert (pc' = pc) as -> by congruence.
    apply set_capt_same. set_solver. }
  split_and!; try done.
  - unfold addTrajectory. destruct (valid b tile); [|done].
    unfold removeTrajectory. rewrite upd_piece_upd_piece.
    apply upd_piece_same. intros pc' Hk'. assert (pc' = pc) as -> by congruence.
    destruct pc as [? ? tr ? ? ?]. unfold set_traj. simpl in *.
    f_equal. set_solver.
  - unfold addCapturing. destruct (valid b tile); [|done].
    unfold removeCapturing. rewrite upd_piece_upd_piece.
    apply upd_piece_same. intros pc' Hk'. assert (pc' = pc) as -> by congruence.
    destruct pc as [? ? ? cp ? ?]. unfold set_capt. simpl in *.
    f_equal. set_solver.
Qed.

End Removal.

Section Hooks.
Variable IState : Type.
Variable rules : Rules IState.

Implicit Types (b : Board IState) (k tile pos : Position_t) (pc : Piece).
Implicit Types (a : Action IState) (acts : list (Action IState)).

Lemma derive_traj_sound (c : BoardConfig) acts pc tile :
  tile ∈ traj (derive c acts pc) →
  tile ∈ traj pc ∨ (tile ∈ proposed_trajectory acts ∧ valid_in c tile = true).
Proof.
  revert pc. induction acts as [|a acts IH]; intros pc; [by left|].
  change (derive c (a :: acts) pc) with (derive c acts (derive1 c a pc)).
  intros [Hin|[Hin Hv]]%IH.
  - destruct a as [t|t|t|t|t|t|t f]; simpl in *;
      try (destruct (valid_in c t) eqn:E); simpl in *;
      set_unfold; naive_solver.
  - right. split; [|done].
    destruct a; simpl; try done. by right.
Qed.

Lemma derive_capt_sound (c : BoardConfig) acts pc tile :
  tile ∈ capt (derive c acts pc) →
  tile ∈ capt pc ∨ (tile ∈ proposed_capturing acts ∧ valid_in c tile = true).
Proof.
  revert pc. induction acts as [|a acts IH]; intros pc; [by left|].
  change (derive c (a :: acts) pc) with (derive c acts (derive1 c a pc)).
  intros [Hin|[Hin Hv]]%IH.
  - destruct a as [t|t|t|t|t|t|t f]; simpl in *;
      try (destruct (valid_in c t) eqn:E); simpl in *;
      set_unfold; naive_solver.
  - right. split; [|done].
    destruct a; simpl; try done. by right.
Qed.

Lemma derive_traj_complete (c : BoardConfig) acts pc tile :
  never_removes acts →
  tile ∈ traj pc ∨ (tile ∈ proposed_trajectory acts ∧ valid_in c tile = true) →
  tile ∈ traj (derive c acts pc).
Proof.
  revert pc. induction acts as [|a acts IH]; intros pc Hnr Hor.
  - destruct Hor as [?|[Hin _]]; [done|]. by apply elem_of_nil in Hin.
  - apply Forall_cons_1 in Hnr as [Ha Hnr].
    change (derive c (a :: acts) pc) with (derive c acts (derive1 c a pc)).
    apply IH; [done|].
    destruct Hor as [Hin|[Hin Hv]].
    + left. destruct a as [t|t|t|t|t|t|t f]; simpl in *; try done;
        destruct (valid_in c t); simpl; set_solver.
    + destruct a as [t|t|t|t|t|t|t f]; simpl in *; try (by right);
        try (destruct (valid_in c t) eqn:E; simpl; by right).
      apply elem_of_cons in Hin as [->|Hin]; [|by right].
      left. rewrite Hv. simpl. set_solver.
Qed.

Lemma derive_capt_complete (c : BoardConfig) acts pc tile :
  never_removes acts →
  tile ∈ capt pc ∨ (tile ∈ proposed_capturing acts ∧ valid_in c tile = true) →
  tile ∈ capt (derive c acts pc).
Proof.
  revert pc. induction acts as [|a acts IH]; intros pc Hnr Hor.
  - destruct Hor as [?|[Hin _]]; [done|]. by apply elem_of_nil in Hin.
  - apply Forall_cons_1 in Hnr as [Ha Hnr].
    change (derive c (a :: acts) pc) with (derive c acts (derive1 c a pc)).
    apply IH; [done|].
    destruct Hor as [Hin|[Hin Hv]].
    + left. destruct a as [t|t|t|t|t|t|t f]; simpl in *; try done;
        destruct (valid_in c t); simpl; set_solver.
    + destruct a as [t|t|t|t|t|t|t f]; simpl in *; try (by right);
        try (destruct (valid_in c t) eqn:E; simpl; by right).
      apply elem_of_cons in Hin as [->|Hin]; [|by right].
      left. rewrite Hv. simpl. set_solver.
Qed.

(** X2: after [makeTrajectory] both sets of the piece hold nothing from
    before the call: every square in them was proposed by the hook during
    this call and is on the board. When the hook takes no square back, the
    sets are exactly the proposed squares that are on the board. *)
Theorem makeTrajectory_fresh_sets b k pc :
  pieces b !! k = Some pc →
  let acts := calcTrajectory rules (kind pc) (makeTrajectory_begin k b) k in
  ∃ pc', pieces (makeTrajectory rules k b) !! k = Some pc'
    ∧ (∀ tile, tile ∈ traj pc' →
         tile ∈ proposed_trajectory acts ∧ valid b tile = true)
    ∧ (∀ tile, tile ∈ capt pc' →
         tile ∈ proposed_capturing acts ∧ valid b tile = true)
    ∧ (never_removes acts →
         (∀ tile, tile ∈ traj pc' ↔
            tile ∈ proposed_trajectory acts ∧ valid b tile = true)
         ∧ (∀ tile, tile ∈ capt pc' ↔
              tile ∈ proposed_capturing acts ∧ valid b tile = true)).
Proof.
  intros Hk acts. eexists. split.
  { by rewrite (makeTrajectory_pieces _ _ _ _ _ Hk), lookup_alter_eq, Hk. }
  fold acts. unfold valid.
  assert (∀ tile, tile ∈ traj (derive (config b) acts (clear_derived pc)) →
            tile ∈ proposed_trajectory acts ∧ valid_in (config b) tile = true)
    as Ht.
  { intros tile [Hin|?]%derive_traj_sound; [|done]. simpl in Hin. set_solver. }
  assert (∀ tile, tile ∈ capt (derive (config b) acts (clear_derived pc)) →
            tile ∈ proposed_capturing acts ∧ valid_in (config b) tile = true)
    as Hc.
  { intros tile [Hin|?]%derive_capt_sound; [|done]. simpl in Hin. set_solver. }
  split_and!; [done|done|]. intros Hnr. split; intros tile; split; auto.
  - intros H. apply derive_traj_complete; [done|by right].
  - intros H. apply derive_capt_complete; [done|by right].
Qed.

End Hooks.

Section CaptureRelation.
Variable IState : Type.
Variable rules : Rules IState.

Implicit Types (b : Board IState) (k tile pos : Position_t) (pc : Piece).
Implicit Types (a : Action IState) (acts : list (Action IState)).
Implicit Types (c : list (Pieces_t_iterator * Position_t)).

Lemma captures_in_bounds_frame b b' :
  config b' = config b →
  (∀ e, e ∈ captures b' → e ∈ captures b ∨ valid b e.2 = true) →
  captures_in_bounds b → captures_in_bounds b'.
Proof.
  intros Hc Hsub Hb e He. rewrite (valid_config IState b' b) by done.
  destruct (Hsub e He) as [Hin|Hv]; [by apply Hb|done].
Qed.

Lemma exec_captures_in_bounds k acts b :
  captures_in_bounds b → captures_in_bounds (exec rules k acts b).
Proof.
  apply captures_in_bounds_frame; [apply exec_config|].
  destruct (pieces b !! k) as [pc|] eqn:Hk; intros e He.
  - apply (exec_captures_sub IState rules k acts b pc e Hk) in He as [He|He];
      [by left|].
    right. by apply registered_shape in He as (tile & -> & Hv).
  - left. revert He. clear -Hk. revert b Hk.
    induction acts as [|a acts IH]; intros b Hk; [done|].
    change (exec rules k (a :: acts) b)
      with (exec rules k acts (exec1 rules k a b)).
    intros He. apply IH in He.
    + revert He. destruct a as [t|t|t|t|t|t|t f]; simpl;
        [open_calls; rewrite ?Hk; repeat case_match; done..|].
      destruct (getInteraction_frame IState rules t b) as (_ & _ & Hc).
      destruct (getInteraction rules t b). simpl in *. by rewrite Hc.
    + by rewrite exec1_pieces, lookup_alter_eq, Hk.
Qed.

Lemma makeTrajectory_captures_in_bounds k b :
  captures_in_bounds b → captures_in_bounds (makeTrajectory rules k b).
Proof.
  intros Hb. unfold makeTrajectory.
  destruct (pieces b !! k) as [pc|] eqn:Hk; [|done].
  apply exec_captures_in_bounds.
  destruct (makeTrajectory_begin_spec IState k b pc Hk) as (Hc & _ & Hcap & _).
  intros e. rewrite Hcap, (valid_config IState (makeTrajectory_begin k b) b)
    by done.
  intros [He|He]%elem_of_app; [by apply Hb|].
  destruct (valid b (p pc)) eqn:Hv; [|by apply elem_of_nil in He].
  by apply list_elem_of_singleton in He as ->.
Qed.

Lemma run_op_captures_in_bounds o b :
  captures_in_bounds b → captures_in_bounds (run_op rules o b).
Proof.
  intros Hb. destruct o as [k|k to| |t|pos]; simpl.
  - by apply makeTrajectory_captures_in_bounds.
  - unfold Piece_move. destruct (pieces b !! k) as [pc|]; [|done].
    by apply makeTrajectory_captures_in_bounds, exec_captures_in_bounds.
  - unfold recalculate. generalize (keys_in_order (pieces b)). intros ks.
    revert b Hb. induction ks as [|k ks IH]; intros b Hb; [done|].
    simpl. by apply IH, makeTrajectory_captures_in_bounds.
  - destruct (getInteraction_frame IState rules t b) as (Hc & _ & Hcap).
    intros e. rewrite Hcap, (valid_config IState (getInteraction rules t b).1 b)
      by done. apply Hb.
  - by rewrite Board_at_same.
Qed.

(** X3: every entry of the capture relation bears a square of the board.
    This holds on every board the constructor returns and is kept by every
    sequence of recomputations, relocations, registry requests and
    lookups, whatever the hooks register. *)
Theorem capture_squares_within_bounds b os :
  captures_in_bounds b →
  captures_in_bounds (run_ops rules os b)
  ∧ ∀ conf fact b0,
      Board_ctor rules conf fact = Ok b0 →
      captures_in_bounds (run_ops rules os b0).
Proof.
  assert (∀ b', captures_in_bounds b' →
            captures_in_bounds (run_ops rules os b')) as Hrun.
  { induction os as [|o os' IH]; intros b' Hb'; [done|].
    unfold run_ops in *. simpl. by apply IH, run_op_captures_in_bounds. }
  intros Hb. split; [by apply Hrun|].
  intros conf fact b0. unfold Board_ctor.
  destruct (place rules fact _ _) as [b1|e] eqn:E; [|done]. intros [= <-].
  apply Hrun. apply (run_op_captures_in_bounds OpRecalculate).
  destruct (place_frame IState rules _ _ _ _ E) as (_ & Hcap).
  intros e. rewrite Hcap. by intros ?%elem_of_nil.
Qed.

Lemma erase_scan_app_new it tile c :
  erase_scan it tile (c ++ [(it, tile)])
  = if decide ((it, tile) ∈ c) then erase_scan it tile c ++ [(it, tile)] else c.
Proof.
  induction c as [|[it' tile'] c IH]; simpl.
  - destruct (decide (it = it)); [|done].
    destruct (decide (tile = tile)); [|done].
    by destruct (decide ((it, tile) ∈ [])) as [?%elem_of_nil|].
  - destruct (decide (it' = it)) as [->|Hit];
      [destruct (decide (tile' = tile)) as [->|Htile]|].
    + by rewrite decide_True by (by left).
    + rewrite IH. destruct (decide ((it, tile) ∈ c)).
      * by rewrite decide_True by (by right).
      * rewrite decide_False; [done|].
        rewrite not_elem_of_cons. split; [congruence|done].
    + rewrite IH. destruct (decide ((it, tile) ∈ c)).
      * by rewrite decide_True by (by right).
      * rewrite decide_False; [done|].
        rewrite not_elem_of_cons. split; [congruence|done].
Qed.

Lemma erase_scan_at it tile c1 c2 :
  (it, tile) ∉ c1 → erase_scan it tile (c1 ++ (it, tile) :: c2) = c1 ++ c2.
Proof.
  induction c1 as [|[it' tile'] c1 IH]; simpl; intros Hnot.
  - destruct (decide (it = it)); [|done]. by destruct (decide (tile = tile)).
  - apply not_elem_of_cons in Hnot as [Hne Hnot].
    destruct (decide (it' = it)) as [->|?];
      [destruct (decide (tile' = tile)) as [->|?]|];
      [done|by rewrite IH..].
Qed.

Lemma equal_range_app it c1 c2 :
  equal_range it (c1 ++ c2) = equal_range it c1 ++ equal_range it c2.
Proof. apply filter_app. Qed.

Lemma equal_range_one it' it tile :
  equal_range it' [(it, tile)] = if decide (it' = it) then [(it, tile)] else [].
Proof.
  unfold equal_range. rewrite filter_cons. simpl.
  repeat case_decide; simplify_eq; done.
Qed.

Lemma equal_range_erase_scan it' it tile c :
  equal_range it' (erase_scan it tile c)
  = if decide (it' = it) then erase_scan it tile (equal_range it c)
    else equal_range it' c.
Proof.
  unfold equal_range.
  induction c as [|[i t] c IH]; simpl; [by destruct (decide (it' = it))|].
  destruct (decide (it' = it)) as [->|Hne];
    destruct (decide (i = it)) as [->|Hi];
    try destruct (decide (t = tile)) as [->|Ht];
    rewrite ?filter_cons; simpl;
    repeat (case_decide; simplify_eq; simpl); try done;
    rewrite ?IH; repeat (case_decide; simplify_eq; simpl); done.
Qed.

(** X4: registering a square of the board with [addCapturable] and
    unregistering it with [removeCapturable] gives the board back when the
    piece had no entry for that square. When it had one, the relation holds
    the same entries as before, each as often; under the key of the piece
    the oldest entry for the square is gone and the new one comes last, and
    under every other key nothing has changed. *)
Theorem removeCapturable_after_addCapturable b k tile pc :
  pieces b !! k = Some pc →
  valid b tile = true →
  let it := pieces_find b (p pc) in
  let b' := removeCapturable k tile (addCapturable k tile b) in
  captures b' ≡ₚ captures b
  ∧ ((it, tile) ∉ captures b → b' = b)
  ∧ (∀ r1 r2, equal_range it (captures b) = r1 ++ (it, tile) :: r2 →
       (it, tile) ∉ r1 →
       equal_range it (captures b') = r1 ++ r2 ++ [(it, tile)])
  ∧ (∀ it', it' ≠ it →
       equal_range it' (captures b') = equal_range it' (captures b))
  ∧ pieces b' = pieces b ∧ interactions b' = interactions b.
Proof.
  intros Hk Hv it b'.
  assert (captures b'
          = if decide ((it, tile) ∈ captures b)
            then erase_scan it tile (captures b) ++ [(it, tile)]
            else captures b) as Hcap.
  { subst b'. unfold addCapturable, removeCapturable. rewrite Hk, Hv.
    simpl. rewrite Hk. simpl. fold it.
    change (pieces_find (set_captures _ b) (p pc)) with it.
    apply erase_scan_app_new. }
  assert (pieces b' = pieces b ∧ interactions b' = interactions b
          ∧ config b' = config b) as (Hp & Hi & Hc).
  { subst b'. unfold addCapturable, removeCapturable. rewrite Hk, Hv.
    simpl. by rewrite Hk. }
  split_and!; try done.
  - rewrite Hcap. destruct (decide ((it, tile) ∈ captures b)) as [Hin|]; [|done].
    destruct (erase_scan_first _ _ _ Hin) as (c1 & c2 & -> & _ & ->).
    rewrite <- app_assoc. apply Permutation_app_head.
    by rewrite Permutation_app_comm.
  - intros Hnot. rewrite decide_False in Hcap by done.
    destruct b' as [cf' ps' cs' is'], b as [cf ps cs ints].
    simpl in *. by subst.
  - intros r1 r2 Heq Hnot.
    assert ((it, tile) ∈ captures b) as Hin.
    { assert ((it, tile) ∈ equal_range it (captures b)) as Hr
        by (rewrite Heq; apply elem_of_app; right; by left).
      by apply list_elem_of_filter in Hr as [_ Hr]. }
    rewrite decide_True in Hcap by done.
    rewrite Hcap, equal_range_app, equal_range_erase_scan, equal_range_one.
    rewrite !decide_True by done.
    by rewrite Heq, erase_scan_at, app_assoc by done.
  - intros it' Hne. rewrite Hcap.
    destruct (decide ((it, tile) ∈ captures b)); [|done].
    rewrite equal_range_app, equal_range_erase_scan, equal_range_one.
    rewrite !decide_False by done. apply app_nil_r.
Qed.

End CaptureRelation.

Section Identity.
Variable IState : Type.

(** Where the calls [os] leave the piece stored under [k] that stood on
    [pos]: on the target of its last [Piece::move]. *)
Fixpoint final_position (k pos : Position_t) (os : list Op) : Position_t :=
  match os with
  | [] => pos
  | OpPieceMove k' to :: os' =>
      final_position k (if bool_decide (k' = k) then to else pos) os'
  | _ :: os' => final_position k pos os'
  end.

(** Every relocation among [os] is of a piece already stored under its
    target, as after the board has moved it in the position table. *)
Definition rekeyed (os : list Op) : Prop :=
  Forall (λ o, match o with OpPieceMove k to => k = to | _ => True end) os.

(** The factory functions build their piece on the square they are given. *)
Definition factory_places (fact : Factory_t IState) : Prop :=
  ∀ cls make, fact !! cls = Some make →
    ∀ (b : Board IState) pos su pc ts,
      make b pos su = Ok (pc, ts) → p pc = pos.

End Identity.

Arguments factory_places {IState} _.

Section Stability.
Variable IState : Type.
Variable rules : Rules IState.

Implicit Types (b : Board IState) (k tile pos : Position_t) (pc : Piece).

Lemma run_op_position o b k pc :
  pieces b !! k = Some pc →
  ∃ pc', pieces (run_op rules o b) !! k = Some pc'
         ∧ s pc' = s pc ∧ kind pc' = kind pc
         ∧ p pc' = final_position k (p pc) [o].
Proof.
  intros Hk. destruct o as [k0|k0 to| |t|pos]; simpl.
  - destruct (derived_only_lookup IState _ _ _ _
                (makeTrajectory_derived_only IState rules k0 b) Hk)
      as (pc' & ? & ? & ? & ? & _). eauto.
  - case_bool_decide as Hk0.
    + subst k0.
      destruct (Piece_move_spec IState rules k to b pc Hk) as (_ & f & -> & Hf).
      rewrite lookup_alter_eq, Hk. simpl.
      destruct (Hf pc) as (? & ? & ? & _). eauto.
    + rewrite Piece_move_other by done. eauto.
  - destruct (derived_only_lookup IState _ _ _ _
                (recalculate_derived_only IState rules b) Hk)
      as (pc' & ? & ? & ? & ? & _). eauto.
  - destruct (getInteraction_frame IState rules t b) as (_ & -> & _). eauto.
  - rewrite Board_at_same. eauto.
Qed.

Lemma run_op_dom o b : dom (pieces (run_op rules o b)) = dom (pieces b).
Proof.
  apply set_eq. intros k. rewrite !elem_of_dom. split.
  - intros [pc' Hk']. destruct (pieces b !! k) as [pc|] eqn:Hk; [eauto|].
    exfalso. destruct o as [k0|k0 to| |t|pos]; simpl in Hk'.
    + pose proof (makeTrajectory_derived_only IState rules k0 b) as [_ Hd].
      specialize (Hd k). rewrite Hk, Hk' in Hd. inversion Hd.
    + destruct (decide (k0 = k)) as [->|Hne].
      * rewrite Piece_move_absent in Hk' by done. congruence.
      * rewrite Piece_move_other in Hk' by done. congruence.
    + pose proof (recalculate_derived_only IState rules b) as [_ Hd].
      specialize (Hd k). rewrite Hk, Hk' in Hd. inversion Hd.
    + destruct (getInteraction_frame IState rules t b) as (_ & Hp & _).
      rewrite Hp in Hk'. congruence.
    + rewrite Board_at_same in Hk'. congruence.
  - intros [pc Hk].
    destruct (run_op_position o b k pc Hk) as (pc' & ? & _). eauto.
Qed.

(** X5: no sequence of recomputations, relocations, registry requests and
    lookups adds a piece to the position table or takes one away, nor does
    it change the suit or the class of a piece or the configuration. The
    position of a piece is the target of the last [Piece::move] made on it,
    and its old position when there was none. *)
Theorem identity_is_stable b os k pc :
  pieces b !! k = Some pc →
  dom (pieces (run_ops rules os b)) = dom (pieces b)
  ∧ config (run_ops rules os b) = config b
  ∧ ∃ pc', pieces (run_ops rules os b) !! k = Some pc'
           ∧ s pc' = s pc ∧ kind pc' = kind pc
           ∧ p pc' = final_position k (p pc) os.
Proof.
  revert b pc. induction os as [|o os IH]; intros b pc Hk.
  - split_and!; [done..|]. eauto.
  - destruct (run_op_position o b k pc Hk) as (pc1 & Hk1 & Hs1 & Hkind1 & Hp1).
    destruct (IH _ _ Hk1) as (Hdom & Hc & pc' & Hk' & Hs & Hkind & Hp).
    change (run_ops rules (o :: os) b)
      with (run_ops rules os (run_op rules o b)).
    split_and!.
    + by rewrite Hdom, run_op_dom.
    + by rewrite Hc, run_op_config.
    + exists pc'. split_and!; [done|congruence|congruence|].
      rewrite Hp, Hp1. by destruct o.
Qed.

Lemma run_op_occupancy o b :
  rekeyed [o] → occupancy b → occupancy (run_op rules o b).
Proof.
  intros [Ho _]%Forall_cons_1 Hocc. destruct o as [k|k to| |t|pos]; simpl.
  - eapply derived_only_occupancy; [apply makeTrajectory_derived_only|done].
  - subst to. intros k' pc'. destruct (decide (k = k')) as [->|Hne].
    + destruct (pieces b !! k') as [pc|] eqn:Hk.
      * destruct (Piece_move_spec IState rules k' k' b pc Hk)
          as (_ & f & -> & Hf).
        rewrite lookup_alter_eq, Hk. intros [= <-]. apply Hf.
      * rewrite Piece_move_absent by done. congruence.
    + rewrite Piece_move_other by done. apply Hocc.
  - eapply derived_only_occupancy; [apply recalculate_derived_only|done].
  - destruct (getInteraction_frame IState rules t b) as (_ & Hp & _).
    intros k pc. rewrite Hp. apply Hocc.
  - by rewrite Board_at_same.
Qed.

Lemma place_occupancy (fact : Factory_t IState) slots b b' :
  factory_places fact → place rules fact slots b = Ok b' →
  occupancy b → occupancy b'.
Proof.
  intros Hfact. revert b. induction slots as [|slot slots IH]; intros b; simpl.
  - by intros [= ->].
  - destruct (fact !! slot.2.1) as [make|] eqn:E; [|done].
    destruct (make b slot.1 slot.2.2) as [[pc0 ts]|e] eqn:Emake; [|done].
    intros Hok Hocc. apply (IH _ Hok). intros k pc. simpl.
    destruct (bind_interactions_frame IState rules ts b) as (_ & -> & _).
    destruct (decide (slot.1 = k)) as [<-|Hne].
    + rewrite lookup_insert_eq. intros [= <-]. by eapply Hfact.
    + rewrite lookup_insert_ne by done. apply Hocc.
Qed.

(** X6: every piece is stored under its own square on the board the
    constructor returns, when the factory functions build their pieces on
    the squares they are given, and stays so through recomputations,
    registry requests, lookups and relocations of pieces already stored
    under their target. [Piece::move] by itself does not move the piece in
    the position table: after it the piece is stored under its own square
    only if the target was the key it is stored under. *)
Theorem occupancy_is_kept b :
  occupancy b →
  (∀ os, rekeyed os → occupancy (run_ops rules os b))
  ∧ (∀ k to, is_Some (pieces b !! k) →
       (occupancy (Piece_move rules k to b) ↔ to = k))
  ∧ (∀ conf fact b0,
       factory_places fact → Board_ctor rules conf fact = Ok b0 →
       occupancy b0).
Proof.
  intros Hocc. split_and!.
  - intros os. revert b Hocc. induction os as [|o os IH]; intros b Hocc Hre.
    + done.
    + apply Forall_cons_1 in Hre as [Ho Hre].
      change (run_ops rules (o :: os) b)
        with (run_ops rules os (run_op rules o b)).
      apply IH; [|done]. apply run_op_occupancy; [by apply Forall_cons|done].
  - intros k to [pc Hk]. split.
    + intros Hocc'.
      destruct (Piece_move_spec IState rules k to b pc Hk) as (_ & f & Hp & Hf).
      destruct (Hf pc) as (Hto & _). rewrite <- Hto. apply Hocc'.
      by rewrite Hp, lookup_alter_eq, Hk.
    + intros ->.
      apply (run_op_occupancy (OpPieceMove k k)); [|done].
      by apply Forall_cons.
  - intros conf fact b0 Hfact. unfold Board_ctor.
    destruct (place rules fact _ _) as [b1|e] eqn:E; [|done]. intros [= <-].
    eapply derived_only_occupancy; [apply recalculate_derived_only|].
    eapply place_occupancy; [done|exact E|].
    intros k pc. simpl. by rewrite lookup_empty.
Qed.

End Stability.

Section Construction.
Variable IState : Type.
Variable rules : Rules IState.

Implicit Types (b : Board IState) (k tile pos : Position_t) (pc : Piece).

Lemma pass_registers_own ks b k pc :
  k ∈ ks → pieces b !! k = Some pc → valid b (p pc) = true →
  (pieces_find b (p pc), p pc) ∈ pass_registers rules ks b.
Proof.
  revert b pc. induction ks as [|k0 ks IH]; intros b pc Hin Hk Hv;
    [by apply elem_of_nil in Hin|].
  simpl. apply elem_of_app.
  destruct (decide (k = k0)) as [->|Hne].
  - left. unfold makeTrajectory_registers. rewrite Hk, Hv. simpl. by left.
  - right. apply elem_of_cons in Hin as [?|Hin]; [done|].
    pose proof (makeTrajectory_derived_only IState rules k0 b) as Hd.
    rewrite <- (pieces_find_dom IState (makeTrajectory rules k0 b) b)
      by (by apply derived_only_dom).
    apply IH; [done| |].
    + by rewrite makeTrajectory_other.
    + rewrite <- Hv. apply valid_config, makeTrajectory_config.
Qed.

(** X7: on the board the constructor returns, every piece that stands on a
    square of the board is registered as capturable on its own square, in
    an entry keyed by the node found under that square, provided no hook
    unregisters entries while it computes a trajectory. *)
Theorem Board_ctor_registers_own_squares conf fact b k pc :
  Board_ctor rules conf fact = Ok b →
  rules_keep_entries rules →
  pieces b !! k = Some pc →
  valid b (p pc) = true →
  (pieces_find b (p pc), p pc) ∈ captures b.
Proof.
  unfold Board_ctor. destruct (place rules fact _ _) as [b0|e] eqn:E; [|done].
  intros [= <-] Hkeep Hk Hv.
  pose proof (recalculate_derived_only IState rules b0) as Hd.
  assert (∃ pc0, pieces b0 !! k = Some pc0 ∧ p pc0 = p pc) as (pc0 & Hk0 & Hp).
  { destruct Hd as [_ Hd]. specialize (Hd k). rewrite Hk in Hd.
    inversion Hd as [pc0 ? (Hp & _)|]; subst. eauto. }
  unfold recalculate in *. rewrite pass_captures_exact by done.
  apply elem_of_app. right.
  rewrite (pieces_find_dom IState _ b0) by (by apply derived_only_dom).
  rewrite <- Hp. apply (pass_registers_own _ _ k).
  - apply keys_in_order_elem. eauto.
  - done.
  - rewrite Hp, <- Hv. symmetry. apply valid_config. apply Hd.
Qed.

End Construction.

Section Pass.
Variable IState : Type.
Variable rules : Rules IState.

Implicit Types (b : Board IState) (k tile pos : Position_t) (pc : Piece).

(** The hook that computes a trajectory looks at the configuration and at
    where the pieces stand, of which suit and class they are and how often
    they have moved, not at their derived sets, the capture relation or the
    registry. *)
Definition reads_identity_only : Prop :=
  ∀ K (b1 b2 : Board IState) k,
    derived_only b1 b2 →
    calcTrajectory rules K b1 k = calcTrajectory rules K b2 k.

(** The piece under [k] with the sets its hook computes on [b]. *)
Definition recomputed (b : Board IState) (k : Position_t) (pc : Piece) : Piece :=
  derive (config b) (calcTrajectory rules (kind pc) b k) (clear_derived pc).

Lemma recomputed_again b k pc :
  recomputed b k (recomputed b k pc) = recomputed b k pc.
Proof.
  unfold recomputed at 1.
  assert (kind (recomputed b k pc) = kind pc) as ->.
  { unfold recomputed.
    by destruct (derive_identity IState (config b)
                   (calcTrajectory rules (kind pc) b k) (clear_derived pc))
      as (_ & _ & -> & _). }
  unfold recomputed at 1. by rewrite clear_derive_clear.
Qed.

Lemma makeTrajectory_begin_derived_only k b :
  derived_only b (makeTrajectory_begin k b).
Proof.
  destruct (pieces b !! k) as [pc|] eqn:Hk.
  - destruct (makeTrajectory_begin_spec IState k b pc Hk) as (Hc & Hp & _).
    by eapply derived_only_alter.
  - unfold makeTrajectory_begin. by rewrite Hk.
Qed.

Lemma makeTrajectory_recomputed bref k b :
  reads_identity_only → derived_only bref b →
  pieces (makeTrajectory rules k b) = alter (recomputed bref k) k (pieces b).
Proof.
  intros Hread Hd. destruct (pieces b !! k) as [pc|] eqn:Hk.
  - rewrite (makeTrajectory_pieces IState rules k b pc Hk).
    apply alter_ext. intros pc0 Hk0. assert (pc0 = pc) as -> by congruence.
    unfold recomputed. destruct Hd as [Hc Hd']. rewrite Hc.
    f_equal. symmetry. apply Hread.
    etrans; [split; [exact Hc|exact Hd']|].
    apply makeTrajectory_begin_derived_only.
  - rewrite makeTrajectory_absent by done. symmetry.
    apply alter_id. intros pc0. congruence.
Qed.

Lemma pass_lookup bref ks b k :
  reads_identity_only → derived_only bref b →
  pieces (foldl (λ b k, makeTrajectory rules k b) b ks) !! k
  = if decide (k ∈ ks) then recomputed bref k <$> pieces b !! k
    else pieces b !! k.
Proof.
  intros Hread. revert b. induction ks as [|k0 ks IH]; intros b Hd; simpl.
  - done.
  - rewrite IH by (etrans; [exact Hd|apply makeTrajectory_derived_only]).
    rewrite (makeTrajectory_recomputed bref) by done.
    destruct (decide (k = k0)) as [->|Hne].
    + rewrite lookup_alter_eq, (decide_True (P := k0 ∈ k0 :: ks)) by (by left).
      destruct (decide (k0 ∈ ks)); [|done].
      destruct (pieces b !! k0); simpl; [|done].
      by rewrite recomputed_again.
    + rewrite lookup_alter_ne by done.
      destruct (decide (k ∈ ks)).
      * by rewrite decide_True by (by right).
      * rewrite decide_False; [done|].
        rewrite not_elem_of_cons. by split.
Qed.

(** X9: when the hooks read only where the pieces stand and who they are,
    the sets a pass leaves do not depend on the order in which it visits
    the pieces, nor on a piece being visited more than once, and a second
    pass over the whole board leaves the position table as the first pass
    left it. *)
Theorem pass_order_and_repetition b :
  reads_identity_only →
  (∀ ks1 ks2,
     (∀ k, k ∈ ks1 ↔ k ∈ ks2) →
     pieces (foldl (λ b k, makeTrajectory rules k b) b ks1)
     = pieces (foldl (λ b k, makeTrajectory rules k b) b ks2))
  ∧ (∀ k pc, pieces b !! k = Some pc →
       pieces (recalculate rules b) !! k = Some (recomputed b k pc))
  ∧ pieces (recalculate rules (recalculate rules b))
    = pieces (recalculate rules b)
  ∧ config (recalculate rules (recalculate rules b)) = config b.
Proof.
  intros Hread.
  assert (∀ k, pieces (recalculate rules b) !! k
               = recomputed b k <$> pieces b !! k) as Hfirst.
  { intros k. unfold recalculate. rewrite (pass_lookup b) by done.
    destruct (decide (k ∈ keys_in_order (pieces b))) as [|Hnot]; [done|].
    rewrite keys_in_order_elem in Hnot.
    destruct (pieces b !! k); [|done]. exfalso. eauto. }
  pose proof (recalculate_derived_only IState rules b) as Hd.
  split_and!.
  - intros ks1 ks2 Hsame. apply map_eq. intros k.
    rewrite !(pass_lookup b) by done.
    destruct (decide (k ∈ ks1)) as [H1|H1], (decide (k ∈ ks2)) as [H2|H2];
      try done; exfalso; apply Hsame in H1 || apply Hsame in H2; done.
  - intros k pc Hk. by rewrite Hfirst, Hk.
  - apply map_eq. intros k. unfold recalculate at 1.
    rewrite (pass_lookup b) by done. rewrite !Hfirst.
    destruct (decide _); [|done].
    destruct (pieces b !! k); simpl; [|done]. by rewrite recomputed_again.
  - destruct (recalculate_derived_only IState rules (recalculate rules b))
      as [-> _]. apply Hd.
Qed.

End Pass.

Arguments reads_identity_only {IState} _.
Arguments recomputed {IState} _ _ _ _.

(** ** The additional statements on concrete boards *)

Local Open Scope string_scope.

Lemma slider_never_unregisters : rules_keep_entries slider_rules.
Proof.
  intros K b k. unfold keeps_entries. simpl.
  destruct (pieces b !! k); by repeat constructor.
Qed.

Lemma slider_reads_identity_only : reads_identity_only slider_rules.
Proof.
  intros K b1 b2 k [_ Hd]. simpl. specialize (Hd k).
  destruct Hd as [pc1 pc2 (Hp & _)|]; [by rewrite Hp|done].
Qed.

Lemma rook_factory_places (IState : Type) : factory_places (rook_factory IState).
Proof.
  intros cls make Hmake b pos su pc ts. unfold rook_factory in Hmake.
  apply lookup_singleton_Some in Hmake as [_ <-]. by intros [= <- _].
Qed.

Lemma remove_undoes_add_witness :
  pieces (board_rook_corner nat) !! (0, 0) = Some corner_rook
  ∧ ((0, 7) ∉ traj corner_rook) ∧ ((0, 7) ∉ capt corner_rook)
  ∧ removeTrajectory (0, 0) (0, 7)
      (addTrajectory (0, 0) (0, 7) (board_rook_corner nat))
    = board_rook_corner nat
  ∧ removeCapturing (0, 0) (0, 7) (board_rook_corner nat)
    = board_rook_corner nat.
Proof.
  assert ((0, 7) ∉ traj corner_rook) as Ht by apply not_elem_of_empty.
  assert ((0, 7) ∉ capt corner_rook) as Hc by apply not_elem_of_empty.
  split; [reflexivity|]. split; [exact Ht|]. split; [exact Hc|].
  destruct (remove_undoes_add nat (board_rook_corner nat) (0, 0) (0, 7)
              corner_rook eq_refl Ht Hc) as (_ & Hrc & Hrt & _).
  split; [exact Hrt|exact Hrc].
Defined.

(** The sliding rook of the corner: (0, 7) is proposed and on the board,
    (0, 8) is proposed and off it. *)
Lemma makeTrajectory_fresh_sets_witness :
  pieces (board_rook_corner nat) !! (0, 0) = Some corner_rook
  ∧ ∃ pc', pieces (makeTrajectory slider_rules (0, 0) (board_rook_corner nat))
             !! (0, 0) = Some pc'
           ∧ (0, 7) ∈ traj pc' ∧ (0, 8) ∉ traj pc'.
Proof.
  split; [reflexivity|].
  pose proof (makeTrajectory_fresh_sets nat slider_rules (board_rook_corner nat)
                (0, 0) corner_rook eq_refl) as H.
  cbv zeta in H. destruct H as (pc' & Hk & _ & _ & Hexact).
  destruct Hexact as [Ht _].
  { vm_compute. repeat constructor. }
  exists pc'. split; [exact Hk|]. split.
  - apply Ht. split; [|reflexivity].
    apply (bool_decide_unpack _). vm_compute. exact I.
  - intros Hin. apply Ht in Hin as [_ Hv]. discriminate Hv.
Defined.

Lemma capture_squares_within_bounds_witness :
  captures_in_bounds (board_duplicates nat)
  ∧ captures_in_bounds
      (run_ops slider_rules [OpRecalculate; OpPieceMove (0, 0) (0, 0)]
         (board_duplicates nat)).
Proof.
  assert (captures_in_bounds (board_duplicates nat)) as Hb.
  { intros e He. simpl in He. rewrite !elem_of_cons, elem_of_nil in He.
    destruct He as [ -> | [ -> | [ -> | [ -> | [] ] ] ] ]; reflexivity. }
  split; [exact Hb|].
  apply (capture_squares_within_bounds nat slider_rules (board_duplicates nat)
           [OpRecalculate; OpPieceMove (0, 0) (0, 0)] Hb).
Defined.

(** The rook of the corner registers (1, 1) a third time and unregisters
    it: of its entries for (1, 1) the oldest goes. *)
Example removeCapturable_after_addCapturable_duplicates :
  equal_range (It (0, 0)) (captures (board_duplicates unit))
  = [(It (0, 0), (1, 1)); (It (0, 0), (2, 2)); (It (0, 0), (1, 1))]
  ∧ equal_range (It (0, 0))
      (captures (removeCapturable (0, 0) (1, 1)
                   (addCapturable (0, 0) (1, 1) (board_duplicates unit))))
    = [(It (0, 0), (2, 2)); (It (0, 0), (1, 1)); (It (0, 0), (1, 1))].
Proof. split; vm_compute; reflexivity. Qed.

Lemma removeCapturable_after_addCapturable_witness :
  pieces (board_duplicates nat) !! (0, 0) = Some corner_rook
  ∧ valid (board_duplicates nat) (1, 1) = true
  ∧ captures (removeCapturable (0, 0) (1, 1)
                (addCapturable (0, 0) (1, 1) (board_duplicates nat)))
    ≡ₚ captures (board_duplicates nat).
Proof.
  split; [reflexivity|]. split; [reflexivity|].
  pose proof (removeCapturable_after_addCapturable nat (board_duplicates nat)
                (0, 0) (1, 1) corner_rook eq_refl eq_refl) as H.
  cbv zeta in H. exact (proj1 H).
Defined.

Lemma identity_is_stable_witness :
  pieces (board_rook_rekeyed nat) !! (0, 7) = Some corner_rook
  ∧ ∃ pc', pieces (run_ops slider_rules (OpRecalculate :: first_move)
                     (board_rook_rekeyed nat)) !! (0, 7) = Some pc'
           ∧ s pc' = "White" ∧ kind pc' = "Rook" ∧ p pc' = (0, 7).
Proof.
  split; [reflexivity|].
  destruct (identity_is_stable nat slider_rules (board_rook_rekeyed nat)
              (OpRecalculate :: first_move) (0, 7) corner_rook eq_refl)
    as (_ & _ & pc' & Hk & Hs & Hkind & Hp).
  exists pc'. split_and!; [exact Hk|exact Hs|exact Hkind|exact Hp].
Defined.

(** The rook of the corner: a relocation to its own square keeps it under
    its square, one to (0, 7) without a change of key does not. *)
Lemma occupancy_is_kept_witness :
  occupancy (board_rook_corner nat)
  ∧ occupancy (run_ops slider_rules [OpRecalculate; OpPieceMove (0, 0) (0, 0)]
                 (board_rook_corner nat))
  ∧ ¬ occupancy (Piece_move slider_rules (0, 0) (0, 7) (board_rook_corner nat)).
Proof.
  pose proof (board_rook_corner_occupancy nat) as Hocc.
  split; [exact Hocc|].
  destruct (occupancy_is_kept nat slider_rules (board_rook_corner nat) Hocc)
    as (Hops & Hmove & _).
  split.
  - apply Hops. by repeat constructor.
  - intros Hbad. apply Hmove in Hbad; [discriminate Hbad|]. by eexists.
Defined.

Lemma Board_ctor_registers_own_squares_witness :
  Board_ctor slider_rules conf_rook_corner (rook_factory nat)
  = Ok built_sliding_rook
  ∧ rules_keep_entries slider_rules
  ∧ (It (0, 0), (0, 0)) ∈ captures built_sliding_rook.
Proof.
  assert (Board_ctor slider_rules conf_rook_corner (rook_factory nat)
          = Ok built_sliding_rook) as Hctor by (vm_compute; reflexivity).
  split; [exact Hctor|]. split; [exact slider_never_unregisters|].
  assert (pieces built_sliding_rook !! (0, 0)
          = Some (recomputed slider_rules (board_rook_corner nat) (0, 0)
                    corner_rook)) as Hk by (vm_compute; reflexivity).
  apply (Board_ctor_registers_own_squares nat slider_rules conf_rook_corner
           (rook_factory nat) built_sliding_rook (0, 0) _ Hctor
           slider_never_unregisters Hk).
  vm_compute. reflexivity.
Defined.

Lemma pass_order_and_repetition_witness :
  reads_identity_only slider_rules
  ∧ pieces (foldl (λ b k, makeTrajectory slider_rules k b)
              (board_duplicates nat) [(0, 0); (3, 4)])
    = pieces (foldl (λ b k, makeTrajectory slider_rules k b)
                (board_duplicates nat) [(3, 4); (0, 0); (3, 4)])
  ∧ pieces (recalculate slider_rules
              (recalculate slider_rules (board_duplicates nat)))
    = pieces (recalculate slider_rules (board_duplicates nat)).
Proof.
  split; [exact slider_reads_identity_only|].
  destruct (pass_order_and_repetition nat slider_rules (board_duplicates nat)
              slider_reads_identity_only) as (Horder & _ & Htwice & _).
  split; [|exact Htwice].
  apply Horder. intros k. rewrite !elem_of_cons, elem_of_nil. tauto.
Defined.

Local Close Scope string_scope.

(** * The resource manager

    [src/res/ResourceManager.hpp]: a cache of loaded resources, keyed by a
    string and the type of the resource. A resource is built by the
    constructor of its class, from a path or from a setting of the
    configuration; what the constructor finds there is not the manager's,
    and the constructor may throw. *)

Module ResourceManager.

(** What lies outside the manager at the time of a call:
    [new ResT{path}] and [new ResT{conf.setting(path...)}], for [ResT] of
    type [t]; [None] when the expression throws. *)
Record World (Resource : Type) := {
  new_from_path : type_index → string → option Resource;
  new_from_setting : type_index → list string → option Resource
}.

Arguments new_from_path {Resource} _ _ _.
Arguments new_from_setting {Resource} _ _ _.

(** [std::string("\0", 1)]: the string of the one character NUL. *)
Definition NUL : string := String Ascii.zero EmptyString.

(** A call of one of the two member templates. *)
Inductive Request :=
  | FromConfig (t : type_index) (path : list string)
  | FromPath (t : type_index) (path : string).

Section Manager.
Variable Resource : Type.

(** [util::path_concat], of util/Utilities.hpp, which is not among the
    sources: any function of the delimiter and the components. *)
Variable path_concat : string → list string → string.

(** [Res_t], the member [res]. *)
Abbreviation Res_t := (gmap (string * type_index) Resource) (only parsing).

(** [ResourceManager::from_config<ResT>(path...)]: the manager after the
    call and the resource returned, [None] when the call throws. *)
Definition from_config (w : World Resource) (t : type_index)
    (path : list string) (res : Res_t) : Res_t * option Resource :=
  let key := (path_concat NUL path, t) in
  match res !! key with
  | Some r => (res, Some r)
  | None =>
      match new_from_setting w t path with
      | Some r => (<[key := r]> res, Some r)
      | None => (res, None)
      end
  end.

(** [ResourceManager::from_path<ResT>(path)] *)
Definition from_path (w : World Resource) (t : type_index) (path : string)
    (res : Res_t) : Res_t * option Resource :=
  let key := (path, t) in
  match res !! key with
  | Some r => (res, Some r)
  | None =>
      match new_from_path w t path with
      | Some r => (<[key := r]> res, Some r)
      | None => (res, None)
      end
  end.

Definition serve (w : World Resource) (q : Request) (res : Res_t)
    : Res_t * option Resource :=
  match q with
  | FromConfig t path => from_config w t path res
  | FromPath t path => from_path w t path res
  end.

(** The key a request looks up, and what it builds when the key is new. *)
Definition key_of (q : Request) : string * type_index :=
  match q with
  | FromConfig t path => (path_concat NUL path, t)
  | FromPath t path => (path, t)
  end.

Definition built (w : World Resource) (q : Request) : option Resource :=
  match q with
  | FromConfig t path => new_from_setting w t path
  | FromPath t path => new_from_path w t path
  end.

(** Calls one after the other, each in the world of its time. *)
Definition serve_all (qs : list (World Resource * Request)) (res : Res_t)
    : Res_t :=
  foldl (λ res wq, (serve wq.1 wq.2 res).1) res qs.

Implicit Types (w : World Resource) (q : Request) (t : type_index).
Implicit Types (qs : list (World Resource * Request)) (r : Resource).

Lemma serve_cases w q (res : Res_t) :
  serve w q res
  = match res !! key_of q with
    | Some r => (res, Some r)
    | None =>
        match built w q with
        | Some r => (<[key_of q := r]> res, Some r)
        | None => (res, None)
        end
    end.
Proof. by destruct q. Qed.

Lemma serve_grows w q (res : Res_t) : res ⊆ (serve w q res).1.
Proof.
  rewrite serve_cases. destruct (res !! key_of q) eqn:E; [done|].
  destruct (built w q); [|done]. simpl. by apply insert_subseteq.
Qed.

Lemma serve_all_grows qs (res : Res_t) : res ⊆ serve_all qs res.
Proof.
  revert res. induction qs as [|[w q] qs IH]; intros res; [done|].
  unfold serve_all in *. simpl. etrans; [apply serve_grows|apply IH].
Qed.

(** X10: a resource, once returned for a key, is the resource every later
    call for that key returns, whatever was requested in between and
    whatever the constructor would find by then: it is not built again,
    and the manager never drops or replaces what it holds. *)
Theorem served_once_served_alike w q (res res' : Res_t) r qs w' :
  serve w q res = (res', Some r) →
  serve w' q (serve_all qs res') = (serve_all qs res', Some r)
  ∧ res ⊆ res' ∧ res' ⊆ serve_all qs res'.
Proof.
  intros Hserve.
  assert (res' !! key_of q = Some r) as Hkey.
  { rewrite serve_cases in Hserve.
    destruct (res !! key_of q) eqn:E; [by simplify_eq|].
    destruct (built w q); simplify_eq. apply lookup_insert_eq. }
  split_and!.
  - rewrite serve_cases.
    by rewrite (lookup_weaken _ _ _ _ Hkey (serve_all_grows qs res')).
  - replace res' with (serve w q res).1 by (by rewrite Hserve).
    apply serve_grows.
  - apply serve_all_grows.
Qed.

(** X11: when the constructor throws, the call throws and the manager is
    left as it was: the failure is not remembered, and a later call for the
    same key builds the resource anew and keeps it. A call throws only for
    a key the manager does not hold. *)
Theorem failed_load_is_not_cached w q (res res' : Res_t) :
  serve w q res = (res', None) →
  res' = res
  ∧ res !! key_of q = None ∧ built w q = None
  ∧ ∀ w' r, built w' q = Some r →
      serve w' q res' = (<[key_of q := r]> res, Some r).
Proof.
  rewrite serve_cases. intros Hserve.
  destruct (res !! key_of q) eqn:E; [done|].
  destruct (built w q) eqn:Eb; [done|]. injection Hserve as <-.
  split_and!; try done.
  intros w' r Hb. by rewrite serve_cases, E, Hb.
Qed.

(** X12: the two member templates share one cache, and what tells two
    resources apart is the key, not the template: a path equal to the key
    [from_config] forms gets from [from_path] the resource built from the
    setting, without a look at the path, and the other way round.
    Requests of another type for the same string are not affected. *)
Theorem config_and_path_share_the_cache w w' t (path : list string)
    (p : string) (res res' : Res_t) r :
  path_concat NUL path = p →
  (from_config w t path res = (res', Some r) →
     from_path w' t p res' = (res', Some r))
  ∧ (from_path w t p res = (res', Some r) →
       from_config w' t path res' = (res', Some r))
  ∧ (∀ t', t' ≠ t →
       (from_config w t path res).1 !! (p, t') = res !! (p, t')
       ∧ (from_path w t p res).1 !! (p, t') = res !! (p, t')).
Proof.
  intros <-. unfold from_config, from_path. split_and!.
  - destruct (res !! (path_concat NUL path, t)) eqn:E.
    + intros [= <- <-]. by rewrite E.
    + destruct (new_from_setting w t path); [|done].
      intros [= <- <-]. by rewrite lookup_insert_eq.
  - destruct (res !! (path_concat NUL path, t)) eqn:E.
    + intros [= <- <-]. by rewrite E.
    + destruct (new_from_path w t (path_concat NUL path)); [|done].
      intros [= <- <-]. by rewrite lookup_insert_eq.
  - intros t' Hne.
    destruct (res !! (path_concat NUL path, t)) eqn:E; simpl; [done|].
    split.
    + destruct (new_from_setting w t path); simpl; [|done].
      rewrite lookup_insert_ne; [done|congruence].
    + destruct (new_from_path w t (path_concat NUL path)); simpl; [|done].
      rewrite lookup_insert_ne; [done|congruence].
Qed.

(** X13: two requests for different keys do not interfere: each returns
    what it would have returned alone, and the manager ends up the same
    whichever is served first. *)
Theorem requests_for_different_keys_commute w1 w2 q1 q2 (res : Res_t) :
  key_of q1 ≠ key_of q2 →
  (serve w2 q2 (serve w1 q1 res).1).1 = (serve w1 q1 (serve w2 q2 res).1).1
  ∧ (serve w2 q2 (serve w1 q1 res).1).2 = (serve w2 q2 res).2
  ∧ (serve w1 q1 (serve w2 q2 res).1).2 = (serve w1 q1 res).2.
Proof.
  intros Hne. rewrite !serve_cases.
  destruct (res !! key_of q1) as [r1|] eqn:E1,
           (res !! key_of q2) as [r2|] eqn:E2; simpl;
    rewrite ?E1, ?E2; simpl; try done.
  - destruct (built w2 q2); simpl; [|by rewrite E1].
    by rewrite lookup_insert_ne, E1 by done.
  - destruct (built w1 q1); simpl; [|by rewrite E2].
    by rewrite lookup_insert_ne, E2 by done.
  - destruct (built w1 q1) as [r1|], (built w2 q2) as [r2|]; simpl;
      rewrite ?lookup_insert_ne, ?E1, ?E2 by done; simpl; try done.
    split_and!; try done. by apply insert_insert_ne.
Qed.

End Manager.

Arguments from_config {Resource} _ _ _ _ _.
Arguments from_path {Resource} _ _ _ _.
Arguments serve {Resource} _ _ _ _.
Arguments key_of _ _ : assert.
Arguments built {Resource} _ _.
Arguments serve_all {Resource} _ _ _.

(** ** The statements on a concrete manager

    Resources are the strings they were built from; the components of a
    configuration path are joined by the delimiter. *)

Local Open Scope string_scope.

Definition join (delim : string) (path : list string) : string :=
  String.concat delim path.

(** A world in which every file but one can be loaded, the same world
    after the file has appeared, and a world in which nothing loads. *)
Definition disk : World string :=
  {| new_from_path := λ t path,
       if decide (path = "missing.png") then None else Some path;
     new_from_setting := λ t path, Some (String.concat "/" path) |}.

Definition disk_restored : World string :=
  {| new_from_path := λ t path, Some path;
     new_from_setting := λ t path, Some (String.concat "/" path) |}.

Definition offline : World string :=
  {| new_from_path := λ t path, None;
     new_from_setting := λ t path, None |}.

Definition cache_rook : gmap (string * type_index) string :=
  {[ ("rook.png", "Texture") := "rook.png" ]}.

Definition cache_board_rook : gmap (string * type_index) string :=
  {[ (join NUL ["board"; "rook"], "Texture") := "board/rook" ]}.

Lemma served_once_served_alike_witness :
  serve join disk (FromPath "Texture" "rook.png") ∅
  = (cache_rook, Some "rook.png")
  ∧ serve join offline (FromPath "Texture" "rook.png")
      (serve_all join [(disk, FromPath "Font" "sans.ttf");
                       (offline, FromConfig "Texture" ["board"; "rook"])]
         cache_rook)
    = (serve_all join [(disk, FromPath "Font" "sans.ttf");
                       (offline, FromConfig "Texture" ["board"; "rook"])]
         cache_rook, Some "rook.png").
Proof.
  assert (serve join disk (FromPath "Texture" "rook.png") ∅
          = (cache_rook, Some "rook.png")) as Hserve
    by (vm_compute; reflexivity).
  split; [exact Hserve|].
  exact (proj1 (served_once_served_alike string join disk
                  (FromPath "Texture" "rook.png") ∅ cache_rook "rook.png"
                  [(disk, FromPath "Font" "sans.ttf");
                   (offline, FromConfig "Texture" ["board"; "rook"])]
                  offline Hserve)).
Defined.

Lemma failed_load_is_not_cached_witness :
  serve join disk (FromPath "Texture" "missing.png") cache_rook
  = (cache_rook, None)
  ∧ serve join disk_restored (FromPath "Texture" "missing.png") cache_rook
    = (<[("missing.png", "Texture") := "missing.png"]> cache_rook,
       Some "missing.png").
Proof.
  assert (serve join disk (FromPath "Texture" "missing.png") cache_rook
          = (cache_rook, None)) as Hserve by (vm_compute; reflexivity).
  split; [exact Hserve|].
  destruct (failed_load_is_not_cached string join disk
              (FromPath "Texture" "missing.png") cache_rook cache_rook Hserve)
    as (_ & _ & _ & Hlater).
  apply (Hlater disk_restored "missing.png"). reflexivity.
Defined.

Lemma config_and_path_share_the_cache_witness :
  join NUL ["board"; "rook"] = join NUL ["board"; "rook"]
  ∧ from_config join disk "Texture" ["board"; "rook"] ∅
    = (cache_board_rook, Some "board/rook")
  ∧ from_path offline "Texture" (join NUL ["board"; "rook"]) cache_board_rook
    = (cache_board_rook, Some "board/rook").
Proof.
  split; [reflexivity|].
  assert (from_config join disk "Texture" ["board"; "rook"] ∅
          = (cache_board_rook, Some "board/rook")) as Hconf
    by (vm_compute; reflexivity).
  split; [exact Hconf|].
  destruct (config_and_path_share_the_cache string join disk offline
              "Texture" ["board"; "rook"] (join NUL ["board"; "rook"])
              ∅ cache_board_rook "board/rook" eq_refl) as (Hpath & _ & _).
  exact (Hpath Hconf).
Defined.

Lemma requests_for_different_keys_commute_witness :
  key_of join (FromPath "Texture" "rook.png")
  ≠ key_of join (FromPath "Font" "rook.png")
  ∧ (serve join disk (FromPath "Font" "rook.png")
       (serve join offline (FromPath "Texture" "rook.png") ∅).1).1
    = (serve join offline (FromPath "Texture" "rook.png")
         (serve join disk (FromPath "Font" "rook.png") ∅).1).1.
Proof.
  assert (key_of join (FromPath "Texture" "rook.png")
          ≠ key_of join (FromPath "Font" "rook.png")) as Hne
    by (intros Heq; discriminate Heq).
  split; [exact Hne|].
  exact (proj1 (requests_for_different_keys_commute string join offline disk
                  (FromPath "Texture" "rook.png") (FromPath "Font" "rook.png")
                  ∅ Hne)).
Defined.

Local Close Scope string_scope.

End ResourceManager.
